(** * Email to Telegram notifier: the ingestion-and-delivery pipeline

  A shallow embedding of [src/parser.py], [src/db.py], [src/bot.py] and
  [src/imap_watcher.py], with the properties of the pipeline proved over it.

  Conventions of the embedding.
  - Python [str] is a list of characters ([list ascii]); the embedding
    covers ASCII text, and [str.lower] is ASCII lower-casing.
  - Python [int] is [Z]; SQL [NULL] and Python [None] are [None].
  - A SQLite table is the list of its rows in rowid order, next to the
    [AUTOINCREMENT] counter that SQLite keeps for it.
  - Calls that leave the program (IMAP, Telegram, the clock) are
    arguments of the operation that makes them. *)

From Stdlib Require Import ZArith List String Ascii Bool Lia.
From stdpp Require Import base list gmap sets strings.
Import ListNotations.

Local Open Scope Z_scope.

(** Python [str] values. *)
Definition str := list ascii.

Definition lit (s : string) : str := list_ascii_of_string s.

(** ** Characters *)
Module Chars.

Definition code (c : ascii) : N := N_of_ascii c.

Definition is_upper (c : ascii) : bool :=
  ((65 <=? code c) && (code c <=? 90))%N.

(** [str.lower] on one ASCII character. *)
Definition lower_char (c : ascii) : ascii :=
  if is_upper c then ascii_of_N (code c + 32) else c.

(** [str.lower]. *)
Definition lower (s : str) : str := map lower_char s.

(** Whitespace as [\s] sees it on [str] patterns: tab, line feed,
    vertical tab, form feed, carriage return, the four separators
    0x1c-0x1f and the space. *)
Definition is_space (c : ascii) : bool :=
  (((9 <=? code c) && (code c <=? 13))
   || ((28 <=? code c) && (code c <=? 31))
   || (code c =? 32))%N.

Definition newline : ascii := ascii_of_N 10.

Definition eqb_char (a b : ascii) : bool := Ascii.eqb a b.

End Chars.

(** ** The fragment of Python's [re] that the parser uses *)
Module Regex.
Import Chars.

(** One-character atoms. *)
Inductive atom : Type :=
| AChar (c : ascii)      (* a literal character *)
| ADot                   (* [.] without DOTALL: anything but a line feed *)
| ANonSpace.             (* [\S] *)

Inductive regex : Type :=
| RNone                            (* matches nothing *)
| REps                             (* the empty string *)
| RAtom (a : atom)
| RSeq (r1 r2 : regex)
| RAlt (r1 r2 : regex)
| RStar (r : regex).

(** [r?] and [r+]. *)
Definition ROpt (r : regex) : regex := RAlt r REps.
Definition RPlus (r : regex) : regex := RSeq r (RStar r).

(** A literal word. *)
Fixpoint RLit (s : str) : regex :=
  match s with
  | [] => REps
  | c :: s' => RSeq (RAtom (AChar c)) (RLit s')
  end.

(** Does the atom accept the character?  [ic] is [re.IGNORECASE]. *)
Definition atom_accepts (ic : bool) (a : atom) (c : ascii) : bool :=
  match a with
  | AChar p => if ic then eqb_char (lower_char c) (lower_char p)
               else eqb_char c p
  | ADot => negb (eqb_char c newline)
  | ANonSpace => negb (is_space c)
  end.

(** The language of a pattern. *)
Inductive matches (ic : bool) : regex -> str -> Prop :=
| MEps : matches ic REps []
| MAtom a c : atom_accepts ic a c = true -> matches ic (RAtom a) [c]
| MSeq r1 r2 s1 s2 :
    matches ic r1 s1 -> matches ic r2 s2 -> matches ic (RSeq r1 r2) (s1 ++ s2)
| MAltL r1 r2 s : matches ic r1 s -> matches ic (RAlt r1 r2) s
| MAltR r1 r2 s : matches ic r2 s -> matches ic (RAlt r1 r2) s
| MStarNil r : matches ic (RStar r) []
| MStarApp r s1 s2 :
    matches ic r s1 -> matches ic (RStar r) s2 -> matches ic (RStar r) (s1 ++ s2).

Fixpoint nullable (r : regex) : bool :=
  match r with
  | RNone => false
  | REps => true
  | RAtom _ => false
  | RSeq r1 r2 => nullable r1 && nullable r2
  | RAlt r1 r2 => nullable r1 || nullable r2
  | RStar _ => true
  end.

(** The pattern that is left after [c] has been read. *)
Fixpoint deriv (ic : bool) (c : ascii) (r : regex) : regex :=
  match r with
  | RNone => RNone
  | REps => RNone
  | RAtom a => if atom_accepts ic a c then REps else RNone
  | RSeq r1 r2 =>
      if nullable r1
      then RAlt (RSeq (deriv ic c r1) r2) (deriv ic c r2)
      else RSeq (deriv ic c r1) r2
  | RAlt r1 r2 => RAlt (deriv ic c r1) (deriv ic c r2)
  | RStar r1 => RSeq (deriv ic c r1) (RStar r1)
  end.

(** Length of the longest prefix of [s] that the pattern matches. *)
Fixpoint longest_prefix (ic : bool) (r : regex) (s : str) : option nat :=
  match s with
  | [] => if nullable r then Some 0%nat else None
  | c :: s' =>
      match longest_prefix ic (deriv ic c r) s' with
      | Some n => Some (S n)
      | None => if nullable r then Some 0%nat else None
      end
  end.

(** [re.match(r, s) is not None]: some prefix of [s] matches. *)
Definition match_prefix (ic : bool) (r : regex) (s : str) : bool :=
  match longest_prefix ic r s with Some _ => true | None => false end.

(** [re.search(r, s) is not None]: a match starts somewhere in [s]. *)
Fixpoint search (ic : bool) (r : regex) (s : str) : bool :=
  match_prefix ic r s
  || match s with
     | [] => false
     | _ :: s' => search ic r s'
     end.

(** [re.sub(r, repl, s)] for a pattern that matches no empty string:
    matches are found left to right and do not overlap; at each start the
    longest match is taken, which is what greedy matching takes for the
    patterns of this program.  [skip] counts the characters of the
    current match that are still to be dropped. *)
Fixpoint sub_from (ic : bool) (r : regex) (repl : str) (skip : nat) (s : str) : str :=
  match s with
  | [] => []
  | c :: s' =>
      match skip with
      | S k => sub_from ic r repl k s'
      | O =>
          match longest_prefix ic r s with
          | Some (S n) => repl ++ sub_from ic r repl n s'
          | _ => c :: sub_from ic r repl 0 s'
          end
      end
  end.

Definition sub (ic : bool) (r : regex) (repl : str) (s : str) : str :=
  sub_from ic r repl 0 s.

(** What [re.sub] does, said with the language of the pattern: the text is
    read from the left; where a piece in the language starts, the longest
    such piece is replaced by [repl] and reading goes on behind it;
    elsewhere one character is copied. *)
Inductive replaced (ic : bool) (r : regex) (repl : str) : str -> str -> Prop :=
| replaced_nil : replaced ic r repl [] []
| replaced_match u rest out :
    u <> [] ->
    matches ic r u ->
    (forall m, (length u < m)%nat -> (m <= length (u ++ rest))%nat ->
               ~ matches ic r (take m (u ++ rest))) ->
    replaced ic r repl rest out ->
    replaced ic r repl (u ++ rest) (repl ++ out)
| replaced_char c s out :
    (forall m, (m <= length (c :: s))%nat -> ~ matches ic r (take m (c :: s))) ->
    replaced ic r repl s out ->
    replaced ic r repl (c :: s) (c :: out).

(** [k in s] for two strings: [k] occurs in [s] as a contiguous piece. *)
Fixpoint starts_with (k s : str) : bool :=
  match k, s with
  | [], _ => true
  | _ :: _, [] => false
  | a :: k', b :: s' => eqb_char a b && starts_with k' s'
  end.

Fixpoint contains (k s : str) : bool :=
  starts_with k s
  || match s with
     | [] => false
     | _ :: s' => contains k s'
     end.

End Regex.

(** ** [src/parser.py]: the classifier *)
Module Parser.
Import Chars Regex.

(** Several patterns in a row, and a choice between several. *)
Definition RSeqs (rs : list regex) : regex := foldr RSeq REps rs.
Definition RAlts (rs : list regex) : regex := foldr RAlt RNone rs.

(** [.?] *)
Definition opt_dot : regex := ROpt (RAtom ADot).

(** [class EmailParser]: the two fields set by [__init__]. *)
Record EmailParser : Type := {
  max_preview_length : Z;
  spam_keywords : list str
}.

(** [EmailParser.__init__]: the keywords are stored lower-cased; a missing
    list is the empty list. *)
Definition EmailParser_init (max_preview_length : Z)
    (spam_keywords : option (list str)) : EmailParser :=
  {| max_preview_length := max_preview_length;
     spam_keywords := map lower (default [] spam_keywords) |}.

(** [text[:k]] for a Python slice bound [k], negative bounds counting from
    the end. *)
Definition slice_to (k : Z) (text : str) : str :=
  if 0 <=? k then take (Z.to_nat k) text
  else take (Z.to_nat (Z.of_nat (length text) + k)) text.

(** [r'https?://\S+'] *)
Definition url_pattern : regex :=
  RSeqs [RLit (lit "http"); ROpt (RAtom (AChar "s")); RLit (lit "://");
         RPlus (RAtom ANonSpace)].

Definition no_content : str := lit "No content".
Definition url_token : str := lit "[URL]".
Definition ellipsis : str := lit "...".

(** [EmailParser._create_preview] *)
Definition _create_preview (self : EmailParser) (text : str) : str :=
  match text with
  | [] => no_content
  | _ :: _ =>
      let text := sub false url_pattern url_token text in
      if max_preview_length self <? Z.of_nat (length text)
      then slice_to (max_preview_length self - 3) text ++ ellipsis
      else text
  end.

(** The list [auto_reply_patterns] of [_is_spam]. *)
Definition auto_reply_patterns : list regex :=
  [ RSeqs [RLit (lit "auto"); opt_dot; RLit (lit "reply")];
    RSeqs [RLit (lit "automatic"); opt_dot; RLit (lit "reply")];
    RSeqs [RLit (lit "out"); opt_dot; RLit (lit "of"); opt_dot; RLit (lit "office")];
    RSeqs [RLit (lit "vacation"); opt_dot; RLit (lit "reply")];
    RSeqs [RLit (lit "away"); opt_dot; RLit (lit "from"); opt_dot; RLit (lit "office")];
    RSeqs [RLit (lit "be"); opt_dot; RLit (lit "back"); opt_dot; RLit (lit "on")] ].

(** [r'no.?reply|donotreply|postmaster|mailer.?daemon'] *)
Definition no_reply_pattern : regex :=
  RAlts [ RSeqs [RLit (lit "no"); opt_dot; RLit (lit "reply")];
          RLit (lit "donotreply");
          RLit (lit "postmaster");
          RSeqs [RLit (lit "mailer"); opt_dot; RLit (lit "daemon")] ].

(** [f"{sender} {subject} {body}".lower()] *)
Definition combined_text (sender subject body : str) : str :=
  lower (sender ++ lit " " ++ subject ++ lit " " ++ body).

(** [EmailParser._is_spam]: three checks in order, each returning [True]
    at its first hit. *)
Definition _is_spam (self : EmailParser) (sender subject body : str) : bool :=
  let combined_text := combined_text sender subject body in
  if existsb (fun keyword => contains keyword combined_text) (spam_keywords self)
  then true
  else if existsb (fun pattern => search true pattern combined_text)
            auto_reply_patterns
  then true
  else if search false no_reply_pattern (lower sender)
  then true
  else false.

(** What [mailparser] reads from a raw message: the header fields that
    [parse_email] uses and the text that [_extract_body_text] makes of the
    body parts. *)
Record mail : Type := {
  mail_message_id : option str;
  mail_from_ : list (str * str);
  mail_subject : option str;
  mail_date : option Z;
  mail_body_text : str
}.

Definition bytes : Type := list Byte.byte.

(** [mailparser.parse_from_bytes], taken as given; [None] when it raises. *)
Class Mailparser : Type := parse_from_bytes : bytes -> option mail.

(** The dictionary returned by [parse_email]. *)
Record parsed_email : Type := {
  message_id : str;
  sender : str;
  subject : str;
  body_preview : str;
  received_date : Z;
  is_spam : bool
}.

(** Python's [x or d] on an optional string: [None] and [''] give [d]. *)
Definition or_default (x : option str) (d : str) : str :=
  match x with
  | Some (c :: s) => c :: s
  | _ => d
  end.

(** [EmailParser._extract_sender] *)
Definition _extract_sender (m : mail) : str :=
  match mail_from_ m with
  | (name, email) :: _ =>
      match name with
      | [] => email
      | _ :: _ => name ++ lit " <" ++ email ++ lit ">"
      end
  | [] => lit "Unknown Sender"
  end.

(** [EmailParser._parse_date]: the header date, or the current time. *)
Definition _parse_date (date_obj : option Z) (now : Z) : Z :=
  default now date_obj.

(** [EmailParser.parse_email]; [now] is the clock. *)
Definition parse_email `{Mailparser} (self : EmailParser) (now : Z)
    (raw_email : bytes) : option parsed_email :=
  match parse_from_bytes raw_email with
  | None => None
  | Some mail =>
      let message_id := or_default (mail_message_id mail) [] in
      let sender := _extract_sender mail in
      let subject := or_default (mail_subject mail) (lit "No Subject") in
      let date := _parse_date (mail_date mail) now in
      let body_text := mail_body_text mail in
      let body_preview := _create_preview self body_text in
      Some {| message_id := message_id;
              sender := sender;
              subject := subject;
              body_preview := body_preview;
              received_date := date;
              is_spam := _is_spam self sender subject body_text |}
  end.

End Parser.

(** ** [src/db.py]: the store *)
Module Db.

(** *** The schema that [init_database] creates *)

Inductive sql_type : Type := INTEGER | TEXT | TIMESTAMP | BOOLEAN.

Inductive sql_default : Type :=
| DefaultNone
| DefaultInt (z : Z)
| DefaultCurrentTimestamp.

Record column : Type := {
  col_name : string;
  col_type : sql_type;
  col_primary_key : bool;
  col_autoincrement : bool;
  col_not_null : bool;
  col_unique : bool;
  col_default : sql_default
}.

Record foreign_key : Type := {
  fk_column : string;
  fk_table : string;
  fk_target : string
}.

Record table : Type := {
  table_name : string;
  table_columns : list column;
  table_unique : list (list string);
  table_foreign_keys : list foreign_key
}.

(** [CREATE INDEX]: none of the indexes of this program is [UNIQUE]. *)
Record index : Type := {
  index_name : string;
  index_table : string;
  index_columns : list string;
  index_unique : bool
}.

Record schema : Type := {
  schema_tables : list table;
  schema_indexes : list index
}.

Definition col (name : string) (ty : sql_type) : column :=
  {| col_name := name; col_type := ty; col_primary_key := false;
     col_autoincrement := false; col_not_null := false; col_unique := false;
     col_default := DefaultNone |}.

Definition primary_key_autoincrement (c : column) : column :=
  {| col_name := col_name c; col_type := col_type c; col_primary_key := true;
     col_autoincrement := true; col_not_null := col_not_null c;
     col_unique := col_unique c; col_default := col_default c |}.

Definition not_null (c : column) : column :=
  {| col_name := col_name c; col_type := col_type c;
     col_primary_key := col_primary_key c;
     col_autoincrement := col_autoincrement c; col_not_null := true;
     col_unique := col_unique c; col_default := col_default c |}.

Definition unique (c : column) : column :=
  {| col_name := col_name c; col_type := col_type c;
     col_primary_key := col_primary_key c;
     col_autoincrement := col_autoincrement c; col_not_null := col_not_null c;
     col_unique := true; col_default := col_default c |}.

Definition with_default (d : sql_default) (c : column) : column :=
  {| col_name := col_name c; col_type := col_type c;
     col_primary_key := col_primary_key c;
     col_autoincrement := col_autoincrement c; col_not_null := col_not_null c;
     col_unique := col_unique c; col_default := d |}.

Local Open Scope string_scope.

(** [CREATE TABLE IF NOT EXISTS emails] *)
Definition emails_table : table :=
  {| table_name := "emails";
     table_columns :=
       [ primary_key_autoincrement (col "id" INTEGER);
         not_null (col "message_id" TEXT);
         not_null (col "email_account" TEXT);
         not_null (col "sender" TEXT);
         not_null (col "subject" TEXT);
         col "body_preview" TEXT;
         not_null (col "received_date" TIMESTAMP);
         with_default DefaultCurrentTimestamp (col "created_at" TIMESTAMP);
         not_null (col "email_hash" TEXT) ];
     table_unique := [];
     table_foreign_keys := [] |}.

(** [CREATE TABLE IF NOT EXISTS groups] *)
Definition groups_table : table :=
  {| table_name := "groups";
     table_columns :=
       [ primary_key_autoincrement (col "id" INTEGER);
         not_null (unique (col "chat_id" INTEGER));
         col "chat_title" TEXT;
         with_default (DefaultInt 1) (col "is_active" BOOLEAN);
         col "filter_accounts" TEXT;
         with_default DefaultCurrentTimestamp (col "added_at" TIMESTAMP);
         col "added_by" INTEGER;
         with_default DefaultCurrentTimestamp (col "updated_at" TIMESTAMP) ];
     table_unique := [];
     table_foreign_keys := [] |}.

(** [CREATE TABLE IF NOT EXISTS email_notifications] *)
Definition email_notifications_table : table :=
  {| table_name := "email_notifications";
     table_columns :=
       [ primary_key_autoincrement (col "id" INTEGER);
         not_null (col "email_id" INTEGER);
         not_null (col "group_id" INTEGER);
         col "telegram_message_id" INTEGER;
         with_default (DefaultInt 0) (col "is_handled" BOOLEAN);
         col "handled_at" TIMESTAMP;
         col "handled_by" INTEGER;
         with_default DefaultCurrentTimestamp (col "created_at" TIMESTAMP) ];
     table_unique := [ ["email_id"; "group_id"] ];
     table_foreign_keys :=
       [ {| fk_column := "email_id"; fk_table := "emails"; fk_target := "id" |};
         {| fk_column := "group_id"; fk_table := "groups"; fk_target := "id" |} ] |}.

Definition plain_index (name tbl column : string) : index :=
  {| index_name := name; index_table := tbl; index_columns := [column];
     index_unique := false |}.

(** [EmailDatabase.init_database]: three tables and six plain indexes. *)
Definition init_database : schema :=
  {| schema_tables := [emails_table; groups_table; email_notifications_table];
     schema_indexes :=
       [ plain_index "idx_message_id" "emails" "message_id";
         plain_index "idx_email_hash" "emails" "email_hash";
         plain_index "idx_chat_id" "groups" "chat_id";
         plain_index "idx_email_notifications_email" "email_notifications" "email_id";
         plain_index "idx_email_notifications_group" "email_notifications" "group_id";
         plain_index "idx_telegram_msg_id" "email_notifications" "telegram_message_id" ] |}.

Local Close Scope string_scope.

(** *** What the schema enforces on an insertion *)

Inductive value : Type :=
| VNull
| VInt (z : Z)
| VText (s : str).

#[export] Instance value_eq_dec : EqDecision value.
Proof. solve_decision. Defined.

(** A row with its values by column name. *)
Definition tuple : Type := list (string * value).

Definition field (name : string) (r : tuple) : value :=
  match find (fun kv => bool_decide (kv.1 = name)) r with
  | Some kv => kv.2
  | None => VNull
  end.

(** The column sets on which SQLite keeps rows distinct: the primary key,
    every [UNIQUE] column, every [UNIQUE(...)] table constraint and every
    unique index of the table. *)
Definition unique_keys (sch : schema) (t : table) : list (list string) :=
  map (fun c => [col_name c])
      (List.filter (fun c => col_primary_key c || col_unique c) (table_columns t))
  ++ table_unique t
  ++ map index_columns
       (List.filter (fun i => index_unique i
                         && bool_decide (index_table i = table_name t))
               (schema_indexes sch)).

(** Two rows collide on a key when they agree on each of its columns and
    none of these values is [NULL]. *)
Definition collide (key : list string) (r1 r2 : tuple) : bool :=
  forallb (fun c => match field c r1 with
                    | VNull => false
                    | v => bool_decide (v = field c r2)
                    end) key.

(** Does the table, holding [rows], refuse [new] for a uniqueness
    violation? *)
Definition rejects (sch : schema) (t : table) (rows : list tuple)
    (new : tuple) : bool :=
  existsb (fun key => existsb (fun old => collide key old new) rows)
          (unique_keys sch t).

(** *** The rows *)

(** [hashlib.sha256(...).hexdigest()], taken as given. *)
Class Sha256 : Type := sha256_hexdigest : str -> str.

(** A JSON value, as [json.loads] returns it. *)
#[local] Unset Elimination Schemes.
Inductive json : Type :=
| JNull
| JBool (b : bool)
| JNumber (z : Z)
| JString (s : str)
| JArray (items : list json)
| JObject (members : list (str * json)).
#[local] Set Elimination Schemes.

(** The text of a [TEXT] column that is meant to hold JSON, seen through
    [json.loads]: either the text of a JSON document, or some other text
    on which [json.loads] raises.  Texts of the same document are not told
    apart. *)
Inductive json_text : Type :=
| JsonOf (doc : json)
| NotJson (raw : str).

(** [json.dumps] of a list of strings. *)
Definition json_dumps (l : list str) : json_text :=
  JsonOf (JArray (map JString l)).

(** [json.loads]; [None] when it raises. *)
Definition json_loads (t : json_text) : option json :=
  match t with
  | JsonOf doc => Some doc
  | NotJson _ => None
  end.

(** Truth value of the text: only the empty text is false, and a JSON
    document is never empty. *)
Definition text_truthy (t : json_text) : bool :=
  match t with
  | JsonOf _ => true
  | NotJson [] => false
  | NotJson (_ :: _) => true
  end.

(** A row of [emails]. *)
Record email_row : Type := {
  e_id : Z;
  e_message_id : str;
  e_email_account : str;
  e_sender : str;
  e_subject : str;
  e_body_preview : option str;
  e_received_date : Z;
  e_created_at : Z;
  e_email_hash : str
}.

(** A row of [groups]. *)
Record group_row : Type := {
  g_id : Z;
  g_chat_id : Z;
  g_chat_title : option str;
  g_is_active : bool;
  g_filter_accounts : option json_text;
  g_added_at : Z;
  g_added_by : option Z;
  g_updated_at : Z
}.

(** A row of [email_notifications]. *)
Record notification_row : Type := {
  n_id : Z;
  n_email_id : Z;
  n_group_id : Z;
  n_telegram_message_id : option Z;
  n_is_handled : bool;
  n_handled_at : option Z;
  n_handled_by : option Z;
  n_created_at : Z
}.

(** The database file: each table with the largest rowid it ever gave
    out ([sqlite_sequence]). *)
Record store : Type := {
  emails : list email_row;
  emails_seq : Z;
  groups : list group_row;
  groups_seq : Z;
  email_notifications : list notification_row;
  email_notifications_seq : Z
}.

(** The file right after [init_database] on a new path. *)
Definition empty_store : store :=
  {| emails := []; emails_seq := 0;
     groups := []; groups_seq := 0;
     email_notifications := []; email_notifications_seq := 0 |}.

(** The rowid an [AUTOINCREMENT] table gives to a new row: one more than
    the largest rowid that the table has or ever had. *)
Definition next_rowid (seq : Z) (ids : list Z) : Z :=
  foldr Z.max seq ids + 1.

Definition set_emails (s : store) (rows : list email_row) (seq : Z) : store :=
  {| emails := rows; emails_seq := seq;
     groups := groups s; groups_seq := groups_seq s;
     email_notifications := email_notifications s;
     email_notifications_seq := email_notifications_seq s |}.

Definition set_groups (s : store) (rows : list group_row) (seq : Z) : store :=
  {| emails := emails s; emails_seq := emails_seq s;
     groups := rows; groups_seq := seq;
     email_notifications := email_notifications s;
     email_notifications_seq := email_notifications_seq s |}.

Definition set_email_notifications (s : store) (rows : list notification_row)
    (seq : Z) : store :=
  {| emails := emails s; emails_seq := emails_seq s;
     groups := groups s; groups_seq := groups_seq s;
     email_notifications := rows; email_notifications_seq := seq |}.

(** The rows as the schema sees them.  The text of [filter_accounts], which
    no constraint mentions and which is not kept character by character,
    is left out of the tuple of a group. *)
Definition vopt {A : Type} (f : A -> value) (o : option A) : value :=
  match o with Some a => f a | None => VNull end.

Definition vbool (b : bool) : value := VInt (if b then 1 else 0).

Local Open Scope string_scope.

Definition email_tuple (r : email_row) : tuple :=
  [ ("id", VInt (e_id r)); ("message_id", VText (e_message_id r));
    ("email_account", VText (e_email_account r));
    ("sender", VText (e_sender r)); ("subject", VText (e_subject r));
    ("body_preview", vopt VText (e_body_preview r));
    ("received_date", VInt (e_received_date r));
    ("created_at", VInt (e_created_at r));
    ("email_hash", VText (e_email_hash r)) ].

Definition group_tuple (r : group_row) : tuple :=
  [ ("id", VInt (g_id r)); ("chat_id", VInt (g_chat_id r));
    ("chat_title", vopt VText (g_chat_title r));
    ("is_active", vbool (g_is_active r));
    ("added_at", VInt (g_added_at r));
    ("added_by", vopt VInt (g_added_by r));
    ("updated_at", VInt (g_updated_at r)) ].

Definition notification_tuple (r : notification_row) : tuple :=
  [ ("id", VInt (n_id r)); ("email_id", VInt (n_email_id r));
    ("group_id", VInt (n_group_id r));
    ("telegram_message_id", vopt VInt (n_telegram_message_id r));
    ("is_handled", vbool (n_is_handled r));
    ("handled_at", vopt VInt (n_handled_at r));
    ("handled_by", vopt VInt (n_handled_by r));
    ("created_at", VInt (n_created_at r)) ].

Local Close Scope string_scope.

(** *** The operations of [EmailDatabase] *)

Section Operations.
Context `{Sha256}.

(** [EmailDatabase.generate_email_hash] *)
Definition generate_email_hash (message_id sender subject : str) : str :=
  sha256_hexdigest (message_id ++ lit "|" ++ sender ++ lit "|" ++ subject).

(** [SELECT COUNT( * )] *)
Definition count {A : Type} (p : A -> bool) (rows : list A) : Z :=
  Z.of_nat (length (List.filter p rows)).

(** [EmailDatabase.email_exists] *)
Definition email_exists (s : store) (message_id sender subject : str) : bool :=
  let email_hash := generate_email_hash message_id sender subject in
  0 <? count (fun r => bool_decide (e_email_hash r = email_hash)
                       || bool_decide (e_message_id r = message_id))
             (emails s).

(** [EmailDatabase.add_email]; [now] is [CURRENT_TIMESTAMP]. *)
Definition add_email (now : Z) (s : store)
    (message_id email_account sender subject body_preview : str)
    (received_date : Z) : store * option Z :=
  let email_hash := generate_email_hash message_id sender subject in
  match List.find (fun r => bool_decide (e_email_hash r = email_hash)) (emails s) with
  | Some existing => (s, Some (e_id existing))
  | None =>
      let lastrowid := next_rowid (emails_seq s) (map e_id (emails s)) in
      let row := {| e_id := lastrowid;
                    e_message_id := message_id;
                    e_email_account := email_account;
                    e_sender := sender;
                    e_subject := subject;
                    e_body_preview := Some body_preview;
                    e_received_date := received_date;
                    e_created_at := now;
                    e_email_hash := email_hash |} in
      (set_emails s (emails s ++ [row]) lastrowid, Some lastrowid)
  end.

End Operations.

(** [json.dumps(filter_accounts) if filter_accounts else None] *)
Definition filter_json (filter_accounts : option (list str)) : option json_text :=
  match filter_accounts with
  | Some (a :: l) => Some (json_dumps (a :: l))
  | _ => None
  end.

(** [EmailDatabase.add_group]: [INSERT OR REPLACE] first deletes the row
    that holds the same [chat_id], then inserts the new row under a new
    rowid; the columns that the statement does not name take their
    defaults. *)
Definition add_group (now : Z) (s : store) (chat_id : Z) (chat_title : str)
    (added_by : Z) (filter_accounts : option (list str)) : store * option Z :=
  let lastrowid := next_rowid (groups_seq s) (map g_id (groups s)) in
  let row := {| g_id := lastrowid;
                g_chat_id := chat_id;
                g_chat_title := Some chat_title;
                g_is_active := true;
                g_filter_accounts := filter_json filter_accounts;
                g_added_at := now;
                g_added_by := Some added_by;
                g_updated_at := now |} in
  let kept := List.filter (fun r => negb (bool_decide (g_chat_id r = chat_id)))
                          (groups s) in
  (set_groups s (kept ++ [row]) lastrowid, Some lastrowid).

Definition deactivate (r : group_row) : group_row :=
  {| g_id := g_id r; g_chat_id := g_chat_id r; g_chat_title := g_chat_title r;
     g_is_active := false; g_filter_accounts := g_filter_accounts r;
     g_added_at := g_added_at r; g_added_by := g_added_by r;
     g_updated_at := g_updated_at r |}.

(** [EmailDatabase.remove_group] *)
Definition remove_group (s : store) (chat_id : Z) : store * bool :=
  let hit := fun r => bool_decide (g_chat_id r = chat_id) in
  let rows := map (fun r => if hit r then deactivate r else r) (groups s) in
  (set_groups s rows (groups_seq s), 0 <? count hit (groups s)).

(** [EmailDatabase.get_active_groups] *)
Definition get_active_groups (s : store) : list group_row :=
  List.filter g_is_active (groups s).

(** [EmailDatabase.get_group_by_chat_id] *)
Definition get_group_by_chat_id (s : store) (chat_id : Z) : option group_row :=
  List.find (fun r => bool_decide (g_chat_id r = chat_id)) (groups s).

Definition with_filter (now : Z) (f : option json_text) (r : group_row)
    : group_row :=
  {| g_id := g_id r; g_chat_id := g_chat_id r; g_chat_title := g_chat_title r;
     g_is_active := g_is_active r; g_filter_accounts := f;
     g_added_at := g_added_at r; g_added_by := g_added_by r;
     g_updated_at := now |}.

(** [EmailDatabase.update_group_filter] *)
Definition update_group_filter (now : Z) (s : store) (chat_id : Z)
    (filter_accounts : option (list str)) : store * bool :=
  let hit := fun r => bool_decide (g_chat_id r = chat_id) in
  let filter_json := filter_json filter_accounts in
  let rows := map (fun r => if hit r then with_filter now filter_json r else r)
                  (groups s) in
  (set_groups s rows (groups_seq s), 0 <? count hit (groups s)).

(** [EmailDatabase.email_sent_to_group] *)
Definition email_sent_to_group (s : store) (email_id group_id : Z) : bool :=
  0 <? count (fun r => bool_decide (n_email_id r = email_id)
                       && bool_decide (n_group_id r = group_id))
             (email_notifications s).

(** [EmailDatabase.add_notification]: [INSERT OR IGNORE] drops the row when
    the pair (email_id, group_id) is already there; the connection is new,
    so its last insert rowid is then still 0. *)
Definition add_notification (now : Z) (s : store)
    (email_id group_id telegram_message_id : Z) : store * option Z :=
  if existsb (fun r => bool_decide (n_email_id r = email_id)
                       && bool_decide (n_group_id r = group_id))
             (email_notifications s)
  then (s, Some 0)
  else
    let lastrowid := next_rowid (email_notifications_seq s)
                                (map n_id (email_notifications s)) in
    let row := {| n_id := lastrowid;
                  n_email_id := email_id;
                  n_group_id := group_id;
                  n_telegram_message_id := Some telegram_message_id;
                  n_is_handled := false;
                  n_handled_at := None;
                  n_handled_by := None;
                  n_created_at := now |} in
    (set_email_notifications s (email_notifications s ++ [row]) lastrowid,
     Some lastrowid).

(** The [SET] clause of [mark_notification_handled]. *)
Definition handled (now handled_by : Z) (r : notification_row)
    : notification_row :=
  {| n_id := n_id r; n_email_id := n_email_id r; n_group_id := n_group_id r;
     n_telegram_message_id := n_telegram_message_id r;
     n_is_handled := true;
     n_handled_at := Some now;
     n_handled_by := Some handled_by;
     n_created_at := n_created_at r |}.

(** The [WHERE] clause of [mark_notification_handled]. *)
Definition pending_with (telegram_message_id : Z) (r : notification_row) : bool :=
  bool_decide (n_telegram_message_id r = Some telegram_message_id)
  && negb (n_is_handled r).

(** [EmailDatabase.mark_notification_handled]: one [UPDATE] statement; the
    result is [cursor.rowcount > 0]. *)
Definition mark_notification_handled (now : Z) (s : store)
    (telegram_message_id handled_by : Z) : store * bool :=
  let hit := pending_with telegram_message_id in
  let rows := map (fun r => if hit r then handled now handled_by r else r)
                  (email_notifications s) in
  let rowcount := count hit (email_notifications s) in
  (set_email_notifications s rows (email_notifications_seq s), 0 <? rowcount).

(** Acknowledgments of one message applied in their order of arrival,
    each of them one [UPDATE] statement, which SQLite runs as a whole: an
    attempt is the clock and the user. *)
Fixpoint mark_all (attempts : list (Z * Z)) (telegram_message_id : Z)
    (s : store) : store * list bool :=
  match attempts with
  | [] => (s, [])
  | (now, handled_by) :: rest =>
      let '(s, marked) := mark_notification_handled now s telegram_message_id handled_by in
      let '(s, results) := mark_all rest telegram_message_id s in
      (s, marked :: results)
  end.

(** *** What holds of the tables *)

(** No two emails with the same fingerprint. *)
Definition hashes_unique (s : store) : Prop :=
  NoDup (map e_email_hash (emails s)).

(** [UNIQUE] on [groups.chat_id]. *)
Definition chats_unique (s : store) : Prop :=
  NoDup (map g_chat_id (groups s)).

(** [UNIQUE(email_id, group_id)] on [email_notifications]. *)
Definition deliveries_unique (s : store) : Prop :=
  NoDup (map (fun r => (n_email_id r, n_group_id r)) (email_notifications s)).

(** Every filter in [groups] was written by [add_group] or
    [update_group_filter]. *)
Definition filters_written (s : store) : Prop :=
  Forall (fun g => exists l, g_filter_accounts g = filter_json l) (groups s).

End Db.

(** ** [src/imap_watcher.py]: the account watcher *)
Module Watcher.
Import Parser.

(** An item of the queue, as [check_new_emails] builds it. *)
Record email_data : Type := {
  account_label : str;
  account_email : str;
  raw_email : bytes;
  uid : Z
}.

(** [class EmailWatcher]: the account, whether [self.client] is set, and
    the watermark. *)
Record EmailWatcher : Type := {
  label : str;
  email : str;
  client : bool;
  last_seen_uids : gset Z
}.

(** [EmailWatcher.__init__] *)
Definition EmailWatcher_init (label email : str) : EmailWatcher :=
  {| label := label; email := email; client := false; last_seen_uids := ∅ |}.

(** What the server does on [connect]: either every call succeeds and
    [search(['ALL'])] returns [messages], or a call raises.
    [client_assigned] tells whether [self.client] was already assigned
    when it raised, [connection_error] whether the exception is one of
    [ConnectionError], [ssl.SSLError] and [IMAPClientError]. *)
Inductive connect_io : Type :=
| ConnectOk (messages : list Z)
| ConnectRaises (client_assigned connection_error : bool).

(** What [search(['ALL'])] does in [check_new_emails]. *)
Inductive search_io : Type :=
| SearchOk (messages : list Z)
| SearchRaises (connection_error : bool).

(** What [fetch([uid], ['RFC822'])] does for one identifier. *)
Inductive fetch_io : Type :=
| FetchOk (raw : bytes)       (* the response holds the message *)
| FetchWithout                (* the response does not hold [uid] *)
| FetchNoBody                 (* it holds [uid] without the [RFC822] key *)
| FetchRaises.                (* the call raises *)

Record check_io : Type := {
  io_connect : connect_io;
  io_search : search_io;
  io_fetch : Z -> fetch_io
}.

Definition set_client (w : EmailWatcher) (c : bool) : EmailWatcher :=
  {| label := label w; email := email w; client := c;
     last_seen_uids := last_seen_uids w |}.

Definition set_last_seen_uids (w : EmailWatcher) (uids : gset Z) : EmailWatcher :=
  {| label := label w; email := email w; client := client w;
     last_seen_uids := uids |}.

(** [EmailWatcher.connect]; the second component is the exception that
    leaves the method, if any, as its [connection_error] flag. *)
Definition connect (io : connect_io) (w : EmailWatcher)
    : EmailWatcher * option bool :=
  match io with
  | ConnectOk messages =>
      (set_last_seen_uids (set_client w true) (list_to_set messages), None)
  | ConnectRaises client_assigned connection_error =>
      (set_client w (client_assigned || client w), Some connection_error)
  end.

(** [EmailWatcher.disconnect] *)
Definition disconnect (w : EmailWatcher) : EmailWatcher := set_client w false.

(** The body of the loop over [new_uids]: the item for one identifier, or
    nothing when its fetch fails. *)
Definition fetch_one (w : EmailWatcher) (fetch : Z -> fetch_io) (uid : Z)
    : option email_data :=
  match fetch uid with
  | FetchOk raw =>
      Some {| account_label := label w; account_email := email w;
              raw_email := raw; uid := uid |}
  | FetchWithout | FetchNoBody | FetchRaises => None
  end.

(** [EmailWatcher.check_new_emails] *)
Definition check_new_emails (io : check_io) (w : EmailWatcher)
    : EmailWatcher * list email_data :=
  let '(w, raised) := if client w then (w, None) else connect (io_connect io) w in
  match raised with
  | Some connection_error =>
      (if connection_error then disconnect w else w, [])
  | None =>
      match io_search io with
      | SearchRaises connection_error =>
          (if connection_error then disconnect w else w, [])
      | SearchOk messages =>
          let current_uids : gset Z := list_to_set messages in
          let new_uids := current_uids ∖ last_seen_uids w in
          if bool_decide (new_uids = ∅) then (w, [])
          else
            let new_emails := omap (fetch_one w (io_fetch io)) (elements new_uids) in
            (set_last_seen_uids w current_uids, new_emails)
      end
  end.

(** [EmailWatcher.polling_loop] over the checks it makes: the items put on
    the queue, check by check. *)
Fixpoint polling_loop (ios : list check_io) (w : EmailWatcher)
    : EmailWatcher * list (list email_data) :=
  match ios with
  | [] => (w, [])
  | io :: ios' =>
      let '(w, new_emails) := check_new_emails io w in
      let '(w, rest) := polling_loop ios' w in
      (w, new_emails :: rest)
  end.

End Watcher.

(** ** [src/config.py]: the settings the pipeline reads *)
Module Config.

Record Settings : Type := {
  max_preview_length : Z;
  spam_keywords : list str
}.

(** The defaults of [class Settings]; [load_settings] overrides neither. *)
Definition default_settings : Settings :=
  {| max_preview_length := 600;
     spam_keywords :=
       map lit [ "unsubscribe"; "no-reply"; "noreply"; "auto-reply";
                 "automatic reply"; "out of office"; "vacation";
                 "away from office" ]%string |}.

End Config.

(** ** [src/bot.py]: the dispatcher and the acknowledgment handler *)
Module Bot.
Import Parser Db Watcher.

(** [class TelegramBot]: the parser built from the settings. *)
Record TelegramBot : Type := {
  parser : EmailParser
}.

(** [TelegramBot.__init__] *)
Definition TelegramBot_init (settings : Config.Settings) : TelegramBot :=
  {| parser := EmailParser_init (Config.max_preview_length settings)
                                (Some (Config.spam_keywords settings)) |}.

(** [label in filters] on a decoded JSON value; [None] is the [TypeError]
    of a value that is no container. *)
Definition py_in (label : str) (filters : json) : option bool :=
  match filters with
  | JArray items =>
      Some (existsb (fun j => match j with
                              | JString s => bool_decide (s = label)
                              | _ => false
                              end) items)
  | JString s => Some (Regex.contains label s)
  | JObject members => Some (existsb (fun kv => bool_decide (kv.1 = label)) members)
  | JNull | JBool _ | JNumber _ => None
  end.

(** [TelegramBot.should_send_to_group] *)
Definition should_send_to_group (group_info : group_row)
    (email_account_label : str) : bool :=
  match g_filter_accounts group_info with
  | None => true
  | Some filter_accounts =>
      if negb (text_truthy filter_accounts) then true
      else
        match json_loads filter_accounts with
        | None => true
        | Some filters =>
            match py_in email_account_label filters with
            | Some b => b
            | None => true
            end
        end
  end.

(** [TelegramBot.send_email_notification]; [send_message] is the Telegram
    call on a chat, [None] when it raises, with the text it sends left
    out. *)
Definition send_email_notification (now : Z) (send_message : Z -> option Z)
    (s : store) (email_id group_id chat_id : Z) : store * option Z :=
  match send_message chat_id with
  | None => (s, None)
  | Some sent_message_id =>
      ((add_notification now s email_id group_id sent_message_id).1,
       Some sent_message_id)
  end.

Section Dispatcher.
Context `{Sha256} `{Mailparser}.

(** The loop over [active_groups] in [process_email_queue]. *)
Definition notify_groups (now : Z) (send_message : Z -> option Z)
    (email_id : Z) (label : str) (active_groups : list group_row)
    (s : store) : store :=
  fold_left
    (fun s group =>
       if should_send_to_group group label
       then if negb (email_sent_to_group s email_id (g_id group))
            then (send_email_notification now send_message s email_id
                    (g_id group) (g_chat_id group)).1
            else s
       else s)
    active_groups s.

(** The body of the loop of [process_email_queue], on one item taken from
    the queue. *)
Definition process_email (self : TelegramBot) (now : Z)
    (send_message : Z -> option Z) (s : store) (item : email_data) : store :=
  match parse_email (parser self) now (raw_email item) with
  | None => s
  | Some parsed =>
      if is_spam parsed then s
      else if email_exists s (message_id parsed) (sender parsed) (subject parsed)
      then s
      else
        let '(s, email_id) :=
          add_email now s (message_id parsed)
            (account_label item ++ lit " (" ++ account_email item ++ lit ")")
            (sender parsed) (subject parsed) (body_preview parsed)
            (received_date parsed) in
        match email_id with
        | Some email_id =>
            if email_id =? 0 then s
            else notify_groups now send_message email_id (account_label item)
                   (get_active_groups s) s
        | None => s
        end
  end.

(** What the world gives to one turn of the loop: the clock, the answers
    of Telegram, and the item taken from the queue. *)
Record turn : Type := {
  turn_now : Z;
  turn_send_message : Z -> option Z;
  turn_item : email_data
}.

(** [TelegramBot.process_email_queue] over the items that arrive. *)
Definition process_email_queue (self : TelegramBot) (turns : list turn)
    (s : store) : store :=
  fold_left
    (fun s t => process_email self (turn_now t) (turn_send_message t) s (turn_item t))
    turns s.

End Dispatcher.

(** The answer that [handle_read_button] gives to the user. *)
Inductive answer : Type :=
| MarkedAsRead          (* the success message *)
| DeleteError           (* deleting the message raised [TelegramError] *)
| AlreadyHandled.       (* the already-handled alert *)

(** [TelegramBot.handle_read_button]; [delete_ok] tells whether Telegram
    deletes the message. *)
Definition handle_read_button (now : Z) (delete_ok : bool) (s : store)
    (data : str) (telegram_message_id user_id : Z) : store * option answer :=
  if Regex.starts_with (lit "read_") data
  then
    let '(s, marked) := mark_notification_handled now s telegram_message_id user_id in
    if marked
    then (s, Some (if delete_ok then MarkedAsRead else DeleteError))
    else (s, Some AlreadyHandled)
  else (s, None).

(** The reply of [subscribe_command]. *)
Inductive subscribe_reply : Type :=
| OnlyInGroups
| Subscribed
| SubscribeFailed.

(** [TelegramBot.subscribe_command] *)
Definition subscribe_command (now : Z) (s : store) (chat_type : str)
    (chat_id : Z) (chat_title : option str) (user_id : Z)
    : store * subscribe_reply :=
  if negb (bool_decide (chat_type = lit "group")
           || bool_decide (chat_type = lit "supergroup"))
  then (s, OnlyInGroups)
  else
    let chat_title := or_default chat_title (lit "Unknown Group") in
    let '(s, group_id) := add_group now s chat_id chat_title user_id None in
    match group_id with
    | Some id => if id =? 0 then (s, SubscribeFailed) else (s, Subscribed)
    | None => (s, SubscribeFailed)
    end.

End Bot.

(** ** A small store and a small mailbox to run the pipeline on *)
Module Fixtures.
Import Parser Db Watcher Bot.

(** A stand-in for the digest: the text itself. *)
Definition plain_digest : Sha256 := fun content => content.

(** A stand-in for [mailparser] that reads the same message from every
    input. *)
Definition one_message : Mailparser :=
  fun _ => Some {| mail_message_id := Some (lit "<m1@example.org>");
                   mail_from_ := [(lit "Alice", lit "alice@example.org")];
                   mail_subject := Some (lit "Quarterly figures");
                   mail_date := Some 1700000000;
                   mail_body_text := lit "Please find the figures attached." |}.

Definition bot : TelegramBot := TelegramBot_init Config.default_settings.

Definition item_of_sales : email_data :=
  {| account_label := lit "sales"; account_email := lit "sales@example.org";
     raw_email := []; uid := 42 |}.

Definition stored_under_same_id : email_row :=
  {| e_id := 1; e_message_id := lit "<m1@example.org>";
     e_email_account := lit "support (support@example.org)";
     e_sender := lit "Bob <bob@example.org>"; e_subject := lit "Other subject";
     e_body_preview := Some (lit "No content"); e_received_date := 0;
     e_created_at := 0;
     e_email_hash := lit "<m1@example.org>|Bob <bob@example.org>|Other subject" |}.

(** Two groups, of the chats -100 and -200, both without a filter. *)
Definition two_rooms : store :=
  (add_group 2 (add_group 1 empty_store (-100) (lit "Room A") 7 None).1
     (-200) (lit "Room B") 8 None).1.

(** Telegram refuses the chat -100 and accepts every other chat. *)
Definition send_fails_for_room_a (chat_id : Z) : option Z :=
  if chat_id =? -100 then None else Some 900.

(** The notification that the dispatcher writes for the second room. *)
Definition written_to_room_b : notification_row :=
  {| n_id := 1; n_email_id := 1; n_group_id := 2;
     n_telegram_message_id := Some 900; n_is_handled := false;
     n_handled_at := None; n_handled_by := None; n_created_at := 5 |}.

End Fixtures.

(** ** [src/db.py]: maintenance, statistics and the runs of the store *)
Module Maintenance.
Import Db.

(** Seconds in a day; the clock of the store counts seconds. *)
Definition day : Z := 86400.

(** The first [DELETE] of [cleanup_old_handled_notifications] removes a
    row when it is handled and was handled before the cutoff; a row
    without [handled_at] compares as [NULL] and stays. *)
Definition old_handled (cutoff : Z) (r : notification_row) : bool :=
  n_is_handled r
  && match n_handled_at r with
     | Some t => t <? cutoff
     | None => false
     end.

(** The second [DELETE] removes an email when no notification names it
    and it was created before the cutoff. *)
Definition orphaned (cutoff : Z) (notifications : list notification_row)
    (e : email_row) : bool :=
  negb (existsb (fun r => bool_decide (n_email_id r = e_id e)) notifications)
  && (e_created_at e <? cutoff).

(** [EmailDatabase.cleanup_old_handled_notifications]: the cutoff is
    [datetime('now', '-<days> days')]; the counters of [sqlite_sequence]
    are not touched by a [DELETE]. *)
Definition cleanup_old_handled_notifications (now : Z) (s : store) (days : Z)
    : store :=
  let cutoff := now - days * day in
  let notifications :=
    List.filter (fun r => negb (old_handled cutoff r)) (email_notifications s) in
  let emails :=
    List.filter (fun e => negb (orphaned cutoff notifications e)) (emails s) in
  {| emails := emails; emails_seq := emails_seq s;
     groups := groups s; groups_seq := groups_seq s;
     email_notifications := notifications;
     email_notifications_seq := email_notifications_seq s |}.

(** The dictionary of [get_group_stats]; [stats_group_id] is missing in
    the default that is returned for an unknown chat. *)
Record group_stats : Type := {
  stats_group_id : option Z;
  total_notifications : Z;
  stats_handled : Z;
  stats_unhandled : Z
}.

(** Number of distinct values, for [COUNT(DISTINCT ...)]. *)
Fixpoint count_distinct (l : list Z) : Z :=
  match l with
  | [] => 0
  | a :: l' =>
      (if existsb (Z.eqb a) l' then 0 else 1) + count_distinct l'
  end.

(** [EmailDatabase.get_group_stats]: the group is joined with its
    notifications; a group without any still gives one row, of zeros. *)
Definition get_group_stats (s : store) (chat_id : Z) : group_stats :=
  match List.find (fun g => bool_decide (g_chat_id g = chat_id)) (groups s) with
  | Some g =>
      let joined :=
        List.filter (fun r => bool_decide (n_group_id r = g_id g))
                    (email_notifications s) in
      {| stats_group_id := Some (g_id g);
         total_notifications := count_distinct (map n_id joined);
         stats_handled := count n_is_handled joined;
         stats_unhandled := count (fun r => negb (n_is_handled r)) joined |}
  | None =>
      {| stats_group_id := None; total_notifications := 0;
         stats_handled := 0; stats_unhandled := 0 |}
  end.

(** The dictionary of [get_overall_stats]. *)
Record overall_stats : Type := {
  total_emails : Z;
  active_groups : Z;
  overall_notifications : Z;
  handled_notifications : Z
}.

(** [EmailDatabase.get_overall_stats] *)
Definition get_overall_stats (s : store) : overall_stats :=
  {| total_emails := Z.of_nat (length (emails s));
     active_groups := count g_is_active (groups s);
     overall_notifications := Z.of_nat (length (email_notifications s));
     handled_notifications := count n_is_handled (email_notifications s) |}.

(** A call of one of the writing methods of [EmailDatabase], with the
    value of the clock at the call. *)
Inductive call : Type :=
| CallAddEmail (now : Z) (message_id email_account sender subject body_preview : str)
    (received_date : Z)
| CallAddGroup (now chat_id : Z) (chat_title : str) (added_by : Z)
    (filter_accounts : option (list str))
| CallRemoveGroup (chat_id : Z)
| CallUpdateGroupFilter (now chat_id : Z) (filter_accounts : option (list str))
| CallAddNotification (now email_id group_id telegram_message_id : Z)
| CallMarkNotificationHandled (now telegram_message_id handled_by : Z)
| CallCleanup (now days : Z).

Section Runs.
Context `{Sha256}.

Definition run_call (s : store) (c : call) : store :=
  match c with
  | CallAddEmail now m acct snd subj prev date =>
      (add_email now s m acct snd subj prev date).1
  | CallAddGroup now chat_id title by_ f => (add_group now s chat_id title by_ f).1
  | CallRemoveGroup chat_id => (remove_group s chat_id).1
  | CallUpdateGroupFilter now chat_id f => (update_group_filter now s chat_id f).1
  | CallAddNotification now e g t => (add_notification now s e g t).1
  | CallMarkNotificationHandled now t u => (mark_notification_handled now s t u).1
  | CallCleanup now days => cleanup_old_handled_notifications now s days
  end.

(** The store after a sequence of calls on a new database. *)
Definition run_calls (calls : list call) : store :=
  fold_left run_call calls empty_store.

End Runs.

(** Primary keys are distinct and not above the counter of their
    table. *)
Definition keys_ok (s : store) : Prop :=
  NoDup (map e_id (emails s))
  /\ Forall (fun id => id <= emails_seq s) (map e_id (emails s))
  /\ NoDup (map g_id (groups s))
  /\ Forall (fun id => id <= groups_seq s) (map g_id (groups s))
  /\ NoDup (map n_id (email_notifications s))
  /\ Forall (fun id => id <= email_notifications_seq s)
       (map n_id (email_notifications s)).


(** What holds of every store that the calls can build. *)
Definition store_ok (s : store) : Prop :=
  hashes_unique s /\ chats_unique s /\ deliveries_unique s /\ keys_ok s
  /\ filters_written s
  /\ 0 <= emails_seq s /\ 0 <= groups_seq s /\ 0 <= email_notifications_seq s.

End Maintenance.

(** ** Python string methods used by the commands and the cleaner *)
Module PyStr.
Import Chars.

(** [s.split(sep)] for a separator of one character: the pieces between
    the separators, at least one piece. *)
Fixpoint split_on (sep : ascii) (s : str) : list str :=
  match s with
  | [] => [[]]
  | c :: s' =>
      if eqb_char c sep then [] :: split_on sep s'
      else match split_on sep s' with
           | part :: parts => (c :: part) :: parts
           | [] => [[c]]
           end
  end.

(** [s.lstrip()], [s.rstrip()] and [s.strip()]. *)
Fixpoint lstrip (s : str) : str :=
  match s with
  | [] => []
  | c :: s' => if is_space c then lstrip s' else s
  end.

Definition rstrip (s : str) : str := rev (lstrip (rev s)).

Definition strip (s : str) : str := rstrip (lstrip s).

(** [sep.join(parts)] *)
Fixpoint join (sep : str) (parts : list str) : str :=
  match parts with
  | [] => []
  | [a] => a
  | a :: rest => a ++ sep ++ join sep rest
  end.

(** [s.replace(old, new)] for [old] of one character. *)
Definition replace_char (old : ascii) (new : str) (s : str) : str :=
  flat_map (fun c => if eqb_char c old then new else [c]) s.

End PyStr.

(** ** [src/parser.py]: cleaning the body and escaping for Telegram *)
Module Cleaner.
Import Chars Regex Parser PyStr.

(** [\s] as a choice between the whitespace characters. *)
Definition space_class : regex :=
  RAlts (map (fun n => RAtom (AChar (ascii_of_N n)))
             [9; 10; 11; 12; 13; 28; 29; 30; 31; 32]%N).

(** [.] under DOTALL: any character, the line feed too. *)
Definition any_char : regex := RAlt (RAtom ADot) (RAtom (AChar newline)).

(** [r'\s+'] *)
Definition whitespace_run : regex := RPlus space_class.

(** [r'\n\s*\n'] *)
Definition blank_lines : regex :=
  RSeqs [RAtom (AChar newline); RStar space_class; RAtom (AChar newline)].

(** The list [signature_patterns] of [_clean_text]; they are used with
    IGNORECASE and DOTALL. *)
Definition signature_patterns : list regex :=
  [ RSeqs [RLit (lit "--"); RStar space_class; RAtom (AChar newline);
           RStar any_char];
    RSeqs [RLit (lit "Sent from my"); RStar any_char];
    RSeqs [RLit (lit "Get Outlook for"); RStar any_char];
    RSeqs [RLit (lit "This email and any attachments"); RStar any_char];
    RSeqs [RLit (lit "CONFIDENTIAL"); RStar any_char];
    RSeqs [RLit (lit "This message contains"); RStar any_char;
           RLit (lit "confidential"); RStar any_char] ].

(** [EmailParser._clean_text] *)
Definition _clean_text (text : str) : str :=
  match text with
  | [] => []
  | _ :: _ =>
      let text := sub false whitespace_run (lit " ") text in
      let text := sub false blank_lines [newline; newline] text in
      let text :=
        fold_left (fun text pattern => sub true pattern [] text)
                  signature_patterns text in
      strip text
  end.

(** The list [escape_chars] of [escape_markdown]. *)
Definition escape_chars : list ascii :=
  list_ascii_of_string "_*[]()~`>#+-=|{}.!".

Definition backslash : ascii := ascii_of_N 92.

(** [escape_markdown] inside [format_telegram_message]: one
    [text.replace(char, '\\' + char)] for each character of the list, in
    the order of the list. *)
Definition escape_markdown (text : str) : str :=
  fold_left (fun text char => replace_char char [backslash; char] text)
            escape_chars text.

End Cleaner.

(** ** [src/bot.py]: the commands that change a subscription *)
Module Commands.
Import Chars Parser PyStr Db Bot.

(** [update.effective_chat.type in ['group', 'supergroup']] *)
Definition in_group (chat_type : str) : bool :=
  bool_decide (chat_type = lit "group")
  || bool_decide (chat_type = lit "supergroup").

(** The reply of [unsubscribe_command]. *)
Inductive unsubscribe_reply : Type :=
| UnsubscribeOnlyInGroups
| Unsubscribed
| WasNotSubscribed.

(** [TelegramBot.unsubscribe_command] *)
Definition unsubscribe_command (s : store) (chat_type : str) (chat_id : Z)
    : store * unsubscribe_reply :=
  if negb (in_group chat_type) then (s, UnsubscribeOnlyInGroups)
  else
    let '(s, removed) := remove_group s chat_id in
    if removed then (s, Unsubscribed) else (s, WasNotSubscribed).

(** The reply of [filter_command], by its kind. *)
Inductive filter_reply : Type :=
| FilterOnlyInGroups
| FilterNotSubscribed
| FilterCleared
| FilterSet (filters : list str)
| FilterShown (current_filter : option json_text).

(** [TelegramBot.filter_command]; [args] is [context.args], the words that
    follow the command. *)
Definition filter_command (now : Z) (s : store) (chat_type : str)
    (chat_id : Z) (args : list str) : store * filter_reply :=
  if negb (in_group chat_type) then (s, FilterOnlyInGroups)
  else
    match get_group_by_chat_id s chat_id with
    | None => (s, FilterNotSubscribed)
    | Some group_info =>
        match args with
        | [] => (s, FilterShown (g_filter_accounts group_info))
        | _ :: _ =>
            let filter_text := join (lit " ") args in
            if bool_decide (lower filter_text = lit "clear")
            then ((update_group_filter now s chat_id None).1, FilterCleared)
            else
              let filters := map strip (split_on "," filter_text) in
              ((update_group_filter now s chat_id (Some filters)).1,
               FilterSet filters)
        end
    end.

(** What a notification written by the dispatcher looks like. *)
Definition written_for (now : Z) (send_message : Z -> option Z) (email_id : Z)
    (g : group_row) (n : notification_row) : Prop :=
  n_email_id n = email_id /\ n_group_id n = g_id g
  /\ (exists sent, send_message (g_chat_id g) = Some sent
                   /\ n_telegram_message_id n = Some sent)
  /\ n_is_handled n = false /\ n_handled_at n = None /\ n_handled_by n = None
  /\ n_created_at n = now.

End Commands.

(** ** [src/imap_watcher.py]: runs of a connection *)
Module WatcherRuns.
Import Watcher.

(** Every search of the run succeeds, and the mailbox only grows from one
    search to the next; [previous] is the set that the search before the
    run returned. *)
Fixpoint growing (previous : gset Z) (ios : list check_io) : Prop :=
  match ios with
  | [] => True
  | io :: ios' =>
      exists messages,
        io_search io = SearchOk messages
        /\ previous ⊆ list_to_set messages
        /\ growing (list_to_set messages) ios'
  end.

(** The identifiers put on the queue by a run, in the order of the
    checks. *)
Definition emitted (batches : list (list email_data)) : list Z :=
  concat (map (map uid) batches).

(** A mailbox that answers every search with [messages] and every fetch
    with an empty message. *)
Definition answering (messages : list Z) : check_io :=
  {| io_connect := ConnectOk messages;
     io_search := SearchOk messages;
     io_fetch := fun _ => FetchOk [] |}.

End WatcherRuns.

(** * Properties *)

(** ** The pattern matcher agrees with the language of the pattern *)
Module RegexFacts.
Import Chars Regex.

Lemma eqb_char_true (a b : ascii) : eqb_char a b = true <-> a = b.
Proof. unfold eqb_char. apply Ascii.eqb_eq. Qed.

Lemma nullable_matches ic r : nullable r = true <-> matches ic r [].
Proof.
  split.
  - induction r; simpl; intros Hn; try discriminate.
    + constructor.
    + apply andb_true_iff in Hn as [H1 H2].
      change (@nil ascii) with (@nil ascii ++ []). constructor; auto.
    + apply orb_true_iff in Hn as [H1|H2]; [apply MAltL|apply MAltR]; auto.
    + constructor.
  - intros Hm. remember [] as s eqn:Hs. induction Hm; simpl; auto; try discriminate.
    + apply app_eq_nil in Hs as [-> ->]. rewrite IHHm1, IHHm2; auto.
    + rewrite IHHm; auto.
    + rewrite IHHm; auto. apply orb_true_r.
Qed.

Lemma deriv_complete ic r s0 :
  matches ic r s0 -> forall c s, s0 = c :: s -> matches ic (deriv ic c r) s.
Proof.
  induction 1 as [|a c0 Ha|r1 r2 s1 s2 H1 IH1 H2 IH2|r1 r2 s0 H1 IH1
                  |r1 r2 s0 H2 IH2| |r1 s1 s2 H1 IH1 H2 IH2];
    intros c s Hs; simpl.
  - discriminate.
  - injection Hs as -> <-. rewrite Ha. constructor.
  - destruct s1 as [|c1 s1'].
    + simpl in Hs. apply nullable_matches in H1. rewrite H1.
      apply MAltR. eauto.
    + simpl in Hs. injection Hs as -> <-.
      destruct (nullable r1); [apply MAltL|]; constructor; eauto.
  - apply MAltL; eauto.
  - apply MAltR; eauto.
  - discriminate.
  - destruct s1 as [|c1 s1'].
    + simpl in Hs. apply (IH2 c s Hs).
    + simpl in Hs. injection Hs as -> <-. constructor; eauto.
Qed.

Lemma deriv_sound ic c r : forall s, matches ic (deriv ic c r) s -> matches ic r (c :: s).
Proof.
  induction r as [| |a|r1 IH1 r2 IH2|r1 IH1 r2 IH2|r1 IH1]; simpl; intros s Hm.
  - inversion Hm.
  - inversion Hm.
  - destruct (atom_accepts ic a c) eqn:Ha; inversion Hm; subst.
    constructor; auto.
  - destruct (nullable r1) eqn:Hn.
    + inversion Hm as [| | |? ? ? Hl|? ? ? Hr| |]; subst.
      * inversion Hl; subst.
        change (c :: s1 ++ s2) with ((c :: s1) ++ s2). constructor; auto.
      * change (c :: s) with ([] ++ c :: s). constructor; auto.
        apply nullable_matches; auto.
    + inversion Hm; subst.
      change (c :: s1 ++ s2) with ((c :: s1) ++ s2). constructor; auto.
  - inversion Hm; subst; [apply MAltL|apply MAltR]; auto.
  - inversion Hm; subst.
    change (c :: s1 ++ s2) with ((c :: s1) ++ s2). constructor; auto.
Qed.

Lemma deriv_matches ic c r s :
  matches ic (deriv ic c r) s <-> matches ic r (c :: s).
Proof.
  split; [apply deriv_sound|]. intros Hm. eapply deriv_complete; eauto.
Qed.

Lemma longest_prefix_None ic : forall s r,
  longest_prefix ic r s = None ->
  forall m, (m <= length s)%nat -> ~ matches ic r (take m s).
Proof.
  induction s as [|c s IH]; intros r; simpl.
  - destruct (nullable r) eqn:Hn; [discriminate|]. intros _ m Hm Hx.
    destruct m; simpl in Hx; apply nullable_matches in Hx; congruence.
  - destruct (longest_prefix ic (deriv ic c r) s) eqn:Hl; [discriminate|].
    destruct (nullable r) eqn:Hn; [discriminate|]. intros _ m Hm Hx.
    destruct m as [|m]; simpl in Hx.
    + apply nullable_matches in Hx; congruence.
    + apply deriv_matches in Hx. apply (IH _ Hl m); [simpl in Hm; lia|auto].
Qed.

(** [longest_prefix] finds a prefix in the language, and no longer prefix
    is in it. *)
Lemma longest_prefix_Some ic : forall s r n,
  longest_prefix ic r s = Some n ->
  (n <= length s)%nat /\ matches ic r (take n s)
  /\ forall m, (n < m)%nat -> (m <= length s)%nat -> ~ matches ic r (take m s).
Proof.
  induction s as [|c s IH]; intros r n; simpl.
  - destruct (nullable r) eqn:Hn; [|discriminate].
    intros [= <-]. split; [lia|]. split; [apply nullable_matches; auto|].
    intros m Hm Hle. lia.
  - destruct (longest_prefix ic (deriv ic c r) s) as [k|] eqn:Hl.
    + intros [= <-]. apply IH in Hl as (Hle & Hk & Hmax).
      split; [lia|]. split; [simpl; apply deriv_matches; auto|].
      intros m Hm Hm'. destruct m as [|m]; [lia|]. simpl.
      rewrite <- deriv_matches. apply Hmax; lia.
    + destruct (nullable r) eqn:Hn; [|discriminate].
      intros [= <-]. split; [lia|]. split; [apply nullable_matches; auto|].
      intros m Hm Hm'. destruct m as [|m]; [lia|]. simpl.
      rewrite <- deriv_matches. intros Hd.
      eapply (longest_prefix_None _ _ _ Hl m); [lia|auto].
Qed.





Lemma sub_from_skip ic r repl : forall s k,
  sub_from ic r repl k s = sub_from ic r repl 0 (drop k s).
Proof.
  induction s as [|c s IH]; intros k.
  - destruct k; reflexivity.
  - destruct k as [|k]; [reflexivity|]. simpl. apply IH.
Qed.

Lemma sub_from_cons ic r repl c s :
  sub_from ic r repl 0 (c :: s)
  = match longest_prefix ic r (c :: s) with
    | Some (S n) => repl ++ sub_from ic r repl n s
    | _ => c :: sub_from ic r repl 0 s
    end.
Proof. reflexivity. Qed.

(** [sub] computes the replacement that [replaced] describes. *)
Lemma sub_replaced ic r repl :
  nullable r = false -> forall s, replaced ic r repl s (sub ic r repl s).
Proof.
  intros Hnull s. unfold sub.
  remember (length s) as n eqn:Hn. revert s Hn.
  induction n as [n IH] using lt_wf_ind. intros s Hn.
  destruct s as [|c s]; [constructor|].
  rewrite sub_from_cons.
  destruct (longest_prefix ic r (c :: s)) as [[|k]|] eqn:Hl.
  - apply longest_prefix_Some in Hl as (_ & Hm & _). simpl in Hm.
    apply nullable_matches in Hm. congruence.
  - pose proof Hl as Hl'.
    apply longest_prefix_Some in Hl' as (Hle & Hm & Hmax).
    rewrite sub_from_skip.
    rewrite <- (take_drop (S k) (c :: s)) at 1.
    change (drop k s) with (drop (S k) (c :: s)).
    apply replaced_match.
    + simpl. discriminate.
    + exact Hm.
    + intros m Hlt Hle'. rewrite take_drop in *.
      rewrite length_take in Hlt. apply Hmax; lia.
    + apply (IH (length (drop (S k) (c :: s)))); [|reflexivity].
      rewrite length_drop. subst n. simpl. lia.
  - apply replaced_char.
    + apply (longest_prefix_None _ _ _ Hl).
    + apply (IH (length s)); [subst n; simpl; lia|reflexivity].
Qed.

Lemma matches_seq ic r1 r2 s :
  matches ic (RSeq r1 r2) s <->
  exists s1 s2, s = s1 ++ s2 /\ matches ic r1 s1 /\ matches ic r2 s2.
Proof.
  split.
  - intros Hm. inversion Hm; subst. eauto.
  - intros (s1 & s2 & -> & H1 & H2). constructor; auto.
Qed.

Lemma matches_eps ic s : matches ic REps s <-> s = [].
Proof. split; [intros Hm; inversion Hm; auto|intros ->; constructor]. Qed.

Lemma matches_atom ic a s :
  matches ic (RAtom a) s <-> exists c, s = [c] /\ atom_accepts ic a c = true.
Proof.
  split.
  - intros Hm. inversion Hm; subst. eauto.
  - intros (c & -> & Hc). constructor; auto.
Qed.

Lemma matches_opt ic r s : matches ic (ROpt r) s <-> matches ic r s \/ s = [].
Proof.
  unfold ROpt. split.
  - intros Hm. inversion Hm as [| | |? ? ? Hl|? ? ? Hr| |]; subst; auto.
    right. apply matches_eps in Hr. auto.
  - intros [Hm| ->]; [apply MAltL; auto|apply MAltR; constructor].
Qed.

(** Without IGNORECASE a literal word matches itself and nothing else. *)
Lemma matches_lit w : forall s, matches false (RLit w) s <-> s = w.
Proof.
  induction w as [|c w IH]; intros s; simpl.
  - apply matches_eps.
  - rewrite matches_seq. split.
    + intros (s1 & s2 & -> & H1 & H2). apply matches_atom in H1 as (c' & -> & Hc).
      simpl in Hc. apply eqb_char_true in Hc as ->. apply IH in H2 as ->. reflexivity.
    + intros ->. exists [c], w. split; [reflexivity|]. split.
      * constructor. simpl. apply eqb_char_true. reflexivity.
      * apply IH. reflexivity.
Qed.

Lemma matches_star_atom ic a s :
  matches ic (RStar (RAtom a)) s <-> Forall (fun c => atom_accepts ic a c = true) s.
Proof.
  split.
  - intros Hm. remember (RStar (RAtom a)) as r eqn:Hr.
    induction Hm; try discriminate.
    + constructor.
    + injection Hr as ->. apply matches_atom in Hm1 as (c & -> & Hc).
      simpl. constructor; auto.
  - induction 1 as [|c s Hc Hs IH]; [constructor|].
    change (c :: s) with ([c] ++ s). constructor; [constructor|]; auto.
Qed.

Lemma matches_plus_atom ic a s :
  matches ic (RPlus (RAtom a)) s <->
  s <> [] /\ Forall (fun c => atom_accepts ic a c = true) s.
Proof.
  unfold RPlus. rewrite matches_seq. split.
  - intros (s1 & s2 & -> & H1 & H2). apply matches_atom in H1 as (c & -> & Hc).
    apply matches_star_atom in H2. split; [discriminate|]. constructor; auto.
  - intros [Hne Hall]. destruct Hall as [|c s Hc Hs]; [congruence|].
    exists [c], s. split; [reflexivity|]. split.
    + constructor; auto.
    + apply matches_star_atom; auto.
Qed.

End RegexFacts.


(** ** The classifier *)
Module ParserProps.
Import Chars Regex Parser RegexFacts.





(** The body of 10,000 characters of the specification, under the default
    maximum of 600: the preview has exactly 600 characters and its last
    three are the ellipsis. *)
Lemma preview_of_10000_characters :
  let self := EmailParser_init 600 None in
  let text := repeat "a"%char (Z.to_nat 10000) in
  length text = Z.to_nat 10000
  /\ length (_create_preview self text) = Z.to_nat 600
  /\ drop (Z.to_nat 597) (_create_preview self text) = ellipsis.
Proof. vm_compute. auto. Qed.

(** A URL is replaced before the cut is made: here the text is longer
    than the maximum only as long as the URL stands in it. *)
Lemma preview_replaces_url_before_cut :
  _create_preview (EmailParser_init 20 None)
    (lit "go https://example.org/a/very/long/path ok")
  = lit "go [URL] ok".
Proof. vm_compute. reflexivity. Qed.

(** The language of [url_pattern]: [http://] or [https://] followed by
    one or more characters that are not whitespace. *)
Lemma url_language (s : str) :
  matches false url_pattern s <->
  exists rest, (s = lit "http://" ++ rest \/ s = lit "https://" ++ rest)
               /\ rest <> [] /\ Forall (fun c => is_space c = false) rest.
Proof.
  unfold url_pattern, RSeqs. cbn [foldr]. split.
  - intros Hm.
    apply matches_seq in Hm as (a & s1 & -> & Ha & Hm). apply matches_lit in Ha as ->.
    apply matches_seq in Hm as (b & s2 & -> & Hb & Hm). apply matches_opt in Hb.
    apply matches_seq in Hm as (c & s3 & -> & Hc & Hm). apply matches_lit in Hc as ->.
    apply matches_seq in Hm as (d & s4 & -> & Hd & Hm). apply matches_eps in Hm as ->.
    apply matches_plus_atom in Hd as [Hne Hall].
    exists d. rewrite app_nil_r. split; [|split; [exact Hne|]].
    + destruct Hb as [Hb| ->]; [right|left; reflexivity].
      apply matches_atom in Hb as (x & -> & Hx). simpl in Hx.
      apply eqb_char_true in Hx as ->. reflexivity.
    + eapply Forall_impl; [exact Hall|]. simpl. intros x Hx.
      apply negb_true_iff in Hx. exact Hx.
  - intros (rest & Hs & Hne & Hall).
    assert (Hplus : matches false (RPlus (RAtom ANonSpace)) rest).
    { apply matches_plus_atom. split; [exact Hne|].
      eapply Forall_impl; [exact Hall|]. simpl. intros x Hx.
      apply negb_true_iff. exact Hx. }
    assert (Htail : matches false
              (RSeq (RLit (lit "://")) (RSeq (RPlus (RAtom ANonSpace)) REps))
              (lit "://" ++ rest)).
    { constructor; [apply matches_lit; reflexivity|].
      rewrite <- (app_nil_r rest). constructor; [exact Hplus|constructor]. }
    destruct Hs as [-> | ->].
    + change (lit "http://" ++ rest) with (lit "http" ++ [] ++ lit "://" ++ rest).
      constructor; [apply matches_lit; reflexivity|].
      constructor; [apply matches_opt; auto|exact Htail].
    + change (lit "https://" ++ rest)
        with (lit "http" ++ ["s"%char] ++ lit "://" ++ rest).
      constructor; [apply matches_lit; reflexivity|].
      constructor; [|exact Htail].
      apply matches_opt. left. constructor. reflexivity.
Qed.

(** The text that [_create_preview] cuts is the body with its URLs
    replaced by the token, in the sense of [replaced]. *)
Lemma preview_urls_replaced (text : str) :
  replaced false url_pattern url_token text (sub false url_pattern url_token text).
Proof. apply sub_replaced. reflexivity. Qed.




(** With the keywords of the default settings, a message that shows none
    of the patterns is not spam. *)
Lemma plain_message_is_not_spam :
  _is_spam (EmailParser_init 600 (Some (Config.spam_keywords Config.default_settings)))
    (lit "Alice <alice@example.org>") (lit "Quarterly figures")
    (lit "Please find the figures attached.") = false.
Proof. vm_compute. reflexivity. Qed.

(** [__init__] lower-cases the keywords, so a keyword given in capitals is
    found in the lower-cased text. *)
Lemma keyword_given_in_capitals :
  _is_spam (EmailParser_init 600 (Some [lit "SALE"]))
    (lit "shop@example.org") (lit "Big Sale") (lit "today only") = true.
Proof. vm_compute. reflexivity. Qed.

End ParserProps.

(** ** The store *)
Module DbProps.
Import Db.

Lemma count_pos {A : Type} (p : A -> bool) (l : list A) :
  (0 <? count p l) = true <-> exists x, In x l /\ p x = true.
Proof.
  unfold count. rewrite Z.ltb_lt. induction l as [|a l IH]; simpl.
  - split; [lia|]. intros (x & [] & _).
  - destruct (p a) eqn:Hp; simpl.
    + split; [eauto|lia].
    + rewrite IH. split.
      * intros (x & Hin & Hx). eauto.
      * intros (x & [->|Hin] & Hx); [congruence|eauto].
Qed.

Lemma count_zero {A : Type} (p : A -> bool) (l : list A) :
  (forall x, In x l -> p x = false) -> (0 <? count p l) = false.
Proof.
  intros Hall. destruct (0 <? count p l) eqn:Hc; [|reflexivity].
  apply count_pos in Hc as (x & Hin & Hx). rewrite (Hall x Hin) in Hx. discriminate.
Qed.

Lemma pending_with_true (t : Z) (r : notification_row) :
  pending_with t r = true <->
  n_telegram_message_id r = Some t /\ n_is_handled r = false.
Proof.
  unfold pending_with.
  rewrite andb_true_iff, bool_decide_eq_true, negb_true_iff. reflexivity.
Qed.

Lemma pending_with_handled (t now u : Z) (r : notification_row) :
  pending_with t (handled now u r) = false.
Proof. unfold pending_with. simpl. apply andb_false_r. Qed.

(** After the update no row is pending under that message identifier. *)
Lemma none_pending_after_mark (now : Z) (s : store) (t u : Z) (r : notification_row) :
  In r (email_notifications (mark_notification_handled now s t u).1) ->
  pending_with t r = false.
Proof.
  simpl. rewrite in_map_iff. intros (r0 & <- & _).
  destruct (pending_with t r0) eqn:Hp; [apply pending_with_handled|exact Hp].
Qed.

Lemma map_id_on {A : Type} (f : A -> A) (l : list A) :
  (forall x, In x l -> f x = x) -> map f l = l.
Proof.
  induction l as [|a l IH]; simpl; intros Hf; [reflexivity|].
  rewrite Hf by auto. rewrite IH by auto. reflexivity.
Qed.

(** An update that finds no pending row changes nothing and fails. *)
Lemma mark_without_pending (now : Z) (s : store) (t u : Z) :
  (forall r, In r (email_notifications s) -> pending_with t r = false) ->
  email_notifications (mark_notification_handled now s t u).1 = email_notifications s
  /\ (mark_notification_handled now s t u).2 = false.
Proof.
  intros Hnone. simpl. split.
  - apply map_id_on. intros r Hin. rewrite (Hnone r Hin). reflexivity.
  - apply count_zero. exact Hnone.
Qed.

Lemma store_eq (s1 s2 : store) :
  emails s1 = emails s2 -> emails_seq s1 = emails_seq s2 ->
  groups s1 = groups s2 -> groups_seq s1 = groups_seq s2 ->
  email_notifications s1 = email_notifications s2 ->
  email_notifications_seq s1 = email_notifications_seq s2 ->
  s1 = s2.
Proof. destruct s1, s2; simpl; intros; subst; reflexivity. Qed.

Lemma mark_twice_same_store (now1 now2 : Z) (s : store) (t u1 u2 : Z) :
  let first := mark_notification_handled now1 s t u1 in
  let second := mark_notification_handled now2 first.1 t u2 in
  second.1 = first.1 /\ second.2 = false.
Proof.
  intros first second.
  destruct (mark_without_pending now2 first.1 t u2) as [Hrows Hres].
  { intros r. apply none_pending_after_mark. }
  split; [|exact Hres].
  apply store_eq; try reflexivity. exact Hrows.
Qed.

(** C8. The update selects rows by [telegram_message_id] and the pending
    flag alone: every pending row that carries the given identifier,
    whatever its email and its group, becomes handled by the acting user
    at the time of the call, every other row and the other tables stay as
    they are, and the result is true exactly when some row was selected. *)
Theorem mark_handled_by_message_id_alone (now : Z) (s : store) (t u : Z) :
  let s' := (mark_notification_handled now s t u).1 in
  emails s' = emails s
  /\ groups s' = groups s
  /\ length (email_notifications s') = length (email_notifications s)
  /\ (forall (i : nat) (r : notification_row),
        nth_error (email_notifications s) i = Some r ->
        (n_telegram_message_id r = Some t /\ n_is_handled r = false ->
         nth_error (email_notifications s') i
         = Some {| n_id := n_id r; n_email_id := n_email_id r;
                   n_group_id := n_group_id r;
                   n_telegram_message_id := Some t;
                   n_is_handled := true; n_handled_at := Some now;
                   n_handled_by := Some u; n_created_at := n_created_at r |})
        /\ (~ (n_telegram_message_id r = Some t /\ n_is_handled r = false) ->
            nth_error (email_notifications s') i = Some r))
  /\ ((mark_notification_handled now s t u).2 = true <->
      exists r, In r (email_notifications s)
                /\ n_telegram_message_id r = Some t /\ n_is_handled r = false).
Proof.
  intros s'. split; [reflexivity|]. split; [reflexivity|].
  split; [subst s'; simpl; apply length_map|]. split.
  - intros i r Hi. subst s'. simpl. rewrite nth_error_map, Hi. simpl. split.
    + intros Hp. pose proof Hp as [Ht _].
      apply pending_with_true in Hp. rewrite Hp.
      unfold handled. rewrite Ht. reflexivity.
    + intros Hp. destruct (pending_with t r) eqn:Hpw; [|reflexivity].
      apply pending_with_true in Hpw. contradiction.
  - simpl. rewrite count_pos. split.
    + intros (r & Hin & Hp). apply pending_with_true in Hp. eauto.
    + intros (r & Hin & Hp). apply pending_with_true in Hp. eauto.
Qed.

(** One call marks two notifications of different emails in different
    groups, because Telegram gave their messages the same number. *)
Lemma one_call_marks_rows_of_two_groups :
  let row (id email_id group_id : Z) :=
    {| n_id := id; n_email_id := email_id; n_group_id := group_id;
       n_telegram_message_id := Some 77; n_is_handled := false;
       n_handled_at := None; n_handled_by := None; n_created_at := 0 |} in
  let s := set_email_notifications empty_store [row 1 10 1; row 2 11 2] 2 in
  map (fun r => (n_group_id r, n_is_handled r, n_handled_by r))
      (email_notifications (mark_notification_handled 5 s 77 900).1)
  = [(1, true, Some 900); (2, true, Some 900)].
Proof. reflexivity. Qed.

Lemma mark_all_first_wins (attempts : list (Z * Z)) (t : Z) (s : store) (r : notification_row) :
  In r (email_notifications s) -> pending_with t r = true ->
  (mark_all attempts t s).2
  = match attempts with
    | [] => []
    | _ :: rest => true :: repeat false (length rest)
    end.
Proof.
  intros Hin Hp. destruct attempts as [|[now u] rest]; [reflexivity|].
  simpl. 
  assert (Hrest : forall (l : list (Z * Z)) (s0 : store),
            (forall x, In x (email_notifications s0) -> pending_with t x = false) ->
            (mark_all l t s0).2 = repeat false (length l)).
  { induction l as [|[n0 u0] l IH]; intros s0 Hnone; [reflexivity|].
    simpl. destruct (mark_without_pending n0 s0 t u0 Hnone) as [Hrows Hres].
    simpl in Hrows, Hres.
    destruct (mark_all l t _) as [s1 res] eqn:Hm. simpl.
    rewrite Hres. f_equal.
    change res with ((s1, res).2). rewrite <- Hm. apply IH.
    simpl. rewrite Hrows. exact Hnone. }
  destruct (mark_all rest t _) as [s1 res] eqn:Hm. simpl. f_equal.
  - apply count_pos. eauto.
  - change res with ((s1, res).2). rewrite <- Hm. apply Hrest.
    intros x. apply (none_pending_after_mark now s t u).
Qed.

(** C1. Acknowledgment arbitration: on a store that holds a pending
    notification with message identifier [t], the first acknowledgment of
    [t] returns true and leaves that row handled, with its user and its
    time; a second acknowledgment returns false and leaves the store as
    the first one left it; and whichever of two attempts arrives first,
    the results are one success followed by one failure. *)
Theorem acknowledgment_arbitration (s : store) (r : notification_row) (t : Z) :
  In r (email_notifications s) ->
  n_telegram_message_id r = Some t ->
  n_is_handled r = false ->
  forall now1 u1 now2 u2 : Z,
    let first := mark_notification_handled now1 s t u1 in
    let second := mark_notification_handled now2 first.1 t u2 in
    first.2 = true
    /\ In {| n_id := n_id r; n_email_id := n_email_id r;
             n_group_id := n_group_id r; n_telegram_message_id := Some t;
             n_is_handled := true; n_handled_at := Some now1;
             n_handled_by := Some u1; n_created_at := n_created_at r |}
          (email_notifications first.1)
    /\ second.2 = false
    /\ second.1 = first.1
    /\ (mark_all [(now1, u1); (now2, u2)] t s).2 = [true; false]
    /\ (mark_all [(now2, u2); (now1, u1)] t s).2 = [true; false].
Proof.
  intros Hin Ht Hh now1 u1 now2 u2 first second.
  assert (Hp : pending_with t r = true) by (apply pending_with_true; auto).
  split; [apply count_pos; eauto|]. split.
  - subst first. simpl. apply in_map_iff. exists r. split; [|exact Hin].
    rewrite Hp. unfold handled. rewrite Ht. reflexivity.
  - destruct (mark_twice_same_store now1 now2 s t u1 u2) as [Hs Hr].
    split; [exact Hr|]. split; [exact Hs|].
    split.
    + exact (mark_all_first_wins [(now1, u1); (now2, u2)] t s r Hin Hp).
    + exact (mark_all_first_wins [(now2, u2); (now1, u1)] t s r Hin Hp).
Qed.

Lemma acknowledgment_arbitration_witness :
  let r := {| n_id := 1; n_email_id := 10; n_group_id := 1;
              n_telegram_message_id := Some 77; n_is_handled := false;
              n_handled_at := None; n_handled_by := None; n_created_at := 0 |} in
  let s := set_email_notifications empty_store [r] 1 in
  (mark_notification_handled 5 s 77 900).2 = true
  /\ (mark_notification_handled 6 (mark_notification_handled 5 s 77 900).1 77 901).2
     = false.
Proof.
  intros r s.
  destruct (acknowledgment_arbitration s r 77) with (now1 := 5) (u1 := 900)
    (now2 := 6) (u2 := 901) as (H1 & _ & H2 & _).
  - simpl. left. reflexivity.
  - reflexivity.
  - reflexivity.
  - split; [exact H1|exact H2].
Defined.

(** *** The schema *)

Lemma unique_keys_emails : unique_keys init_database emails_table = [["id"%string]].
Proof. reflexivity. Qed.

Lemma unique_keys_groups :
  unique_keys init_database groups_table = [["id"%string]; ["chat_id"%string]].
Proof. reflexivity. Qed.

Lemma unique_keys_email_notifications :
  unique_keys init_database email_notifications_table
  = [["id"%string]; ["email_id"%string; "group_id"%string]].
Proof. reflexivity. Qed.

Lemma rejects_on_key (sch : schema) (t : table) (key : list string)
    (rows : list tuple) (old new : tuple) :
  In key (unique_keys sch t) -> In old rows -> collide key old new = true ->
  rejects sch t rows new = true.
Proof.
  intros Hkey Hold Hc. unfold rejects. apply existsb_exists.
  exists key. split; [exact Hkey|]. apply existsb_exists. eauto.
Qed.

(** The schema lets a second email with the fingerprint of a stored one
    in. *)
Lemma second_row_with_same_fingerprint_accepted :
  let e1 := {| e_id := 1; e_message_id := lit "<m1@x>";
               e_email_account := lit "sales (s@x.com)";
               e_sender := lit "a@b.c"; e_subject := lit "hello";
               e_body_preview := Some (lit "No content");
               e_received_date := 0; e_created_at := 0;
               e_email_hash := lit "2cf24dba" |} in
  let e2 := {| e_id := 2; e_message_id := lit "<m1@x>";
               e_email_account := lit "sales (s@x.com)";
               e_sender := lit "a@b.c"; e_subject := lit "hello";
               e_body_preview := Some (lit "No content");
               e_received_date := 0; e_created_at := 1;
               e_email_hash := lit "2cf24dba" |} in
  e_email_hash e2 = e_email_hash e1
  /\ rejects init_database emails_table [email_tuple e1] (email_tuple e2) = false.
Proof. split; reflexivity. Qed.

Lemma find_app {A : Type} (f : A -> bool) (l1 l2 : list A) :
  List.find f (l1 ++ l2)
  = match List.find f l1 with
    | Some x => Some x
    | None => List.find f l2
    end.
Proof.
  induction l1 as [|a l1 IH]; simpl; [reflexivity|].
  destruct (f a); [reflexivity|exact IH].
Qed.

Section Emails.
Context `{Sha256}.

(** [add_email] never stores a fingerprint twice. *)
Lemma add_email_keeps_hashes_unique (now : Z) (s : store)
    (m acct snd subj prev : str) (date : Z) :
  hashes_unique s -> hashes_unique (add_email now s m acct snd subj prev date).1.
Proof.
  unfold hashes_unique, add_email. intros Hs.
  destruct (List.find _ (emails s)) as [existing|] eqn:Hf; [exact Hs|].
  simpl. rewrite map_app. simpl.
  apply NoDup_app. split; [exact Hs|]. split; [|apply NoDup_singleton].
  intros h Hin Hh. apply list_elem_of_In in Hin. apply in_map_iff in Hin as (r & <- & Hr).
  apply list_elem_of_In in Hh. simpl in Hh. destruct Hh as [Hh|[]].
  pose proof (find_none _ _ Hf r Hr) as Hne. simpl in Hne.
  apply bool_decide_eq_false in Hne. congruence.
Qed.

(** A second [add_email] with the same identifier, sender and subject
    returns the identity that the first one returned and writes nothing. *)
Lemma add_email_idempotent (now1 now2 : Z) (s : store)
    (m acct1 acct2 snd subj prev1 prev2 : str) (date1 date2 : Z) :
  let first := add_email now1 s m acct1 snd subj prev1 date1 in
  let second := add_email now2 first.1 m acct2 snd subj prev2 date2 in
  second.1 = first.1
  /\ second.2 = first.2
  /\ exists id row,
       first.2 = Some id /\ In row (emails first.1) /\ e_id row = id
       /\ e_email_hash row = generate_email_hash m snd subj.
Proof.
  intros first second. subst second first. unfold add_email.
  destruct (List.find _ (emails s)) as [existing|] eqn:Hf.
  - simpl. rewrite Hf. simpl. split; [reflexivity|]. split; [reflexivity|].
    exists (e_id existing), existing. split; [reflexivity|].
    apply find_some in Hf as [Hin Hh]. apply bool_decide_eq_true in Hh. auto.
  - simpl. rewrite find_app, Hf. simpl.
    rewrite bool_decide_eq_true_2 by reflexivity. simpl.
    split; [reflexivity|]. split; [reflexivity|].
    eexists _, _. split; [reflexivity|]. split; [apply in_or_app; right; left; reflexivity|].
    split; reflexivity.
Qed.

End Emails.

(** C3 (amended). The schema of [init_database] declares [chat_id] unique
    and the pair (email_id, group_id) unique, so the store refuses a
    second group with a stored chat identifier and a second notification
    with a stored pair.  On [email_hash] it declares a plain index and no
    constraint: the only key of [emails] is its rowid, and a row under a
    new rowid is accepted whatever its fingerprint.  Fingerprints stay
    distinct because [add_email] looks the fingerprint up before it
    inserts. *)
Theorem schema_uniqueness :
  (forall (rows : list group_row) (old new : group_row),
     In old rows -> g_chat_id old = g_chat_id new ->
     rejects init_database groups_table (map group_tuple rows) (group_tuple new)
     = true)
  /\ (forall (rows : list notification_row) (old new : notification_row),
       In old rows -> n_email_id old = n_email_id new ->
       n_group_id old = n_group_id new ->
       rejects init_database email_notifications_table
         (map notification_tuple rows) (notification_tuple new) = true)
  /\ unique_keys init_database emails_table = [["id"%string]]
  /\ (forall (rows : list email_row) (new : email_row),
       (forall old, In old rows -> e_id old <> e_id new) ->
       rejects init_database emails_table (map email_tuple rows) (email_tuple new)
       = false)
  /\ (forall (sha : Sha256) (now : Z) (s : store) (m acct snd subj prev : str)
             (date : Z),
       hashes_unique s ->
       hashes_unique (add_email now s m acct snd subj prev date).1).
Proof.
  split; [|split; [|split; [|split]]].
  - intros rows old new Hin Hc.
    apply (rejects_on_key _ _ ["chat_id"%string] _ (group_tuple old)).
    + rewrite unique_keys_groups. simpl. auto.
    + apply in_map. exact Hin.
    + unfold collide. simpl. rewrite Hc.
      rewrite bool_decide_eq_true_2 by reflexivity. reflexivity.
  - intros rows old new Hin He Hg.
    apply (rejects_on_key _ _ ["email_id"%string; "group_id"%string] _
             (notification_tuple old)).
    + rewrite unique_keys_email_notifications. simpl. auto.
    + apply in_map. exact Hin.
    + unfold collide. simpl. rewrite He, Hg.
      rewrite !bool_decide_eq_true_2 by reflexivity. reflexivity.
  - reflexivity.
  - intros rows new Hfresh. unfold rejects. rewrite unique_keys_emails. simpl.
    rewrite orb_false_r.
    destruct (existsb _ (map email_tuple rows)) eqn:He; [|reflexivity].
    apply existsb_exists in He as (x & Hx & Hc).
    apply in_map_iff in Hx as (old & <- & Hold).
    unfold collide in Hc. simpl in Hc. rewrite andb_true_r in Hc.
    apply bool_decide_eq_true in Hc. injection Hc as Hc.
    exfalso. apply (Hfresh old Hold Hc).
  - intros sha now s m acct snd subj prev date.
    apply add_email_keeps_hashes_unique.
Qed.

(** *** Rowids and groups *)

Lemma next_rowid_above (seq : Z) (ids : list Z) :
  seq < next_rowid seq ids /\ forall id, In id ids -> id < next_rowid seq ids.
Proof.
  unfold next_rowid. induction ids as [|a ids [IHs IHi]]; simpl.
  - split; [lia|]. intros id [].
  - split; [lia|]. intros id [->|Hin]; [lia|]. specialize (IHi id Hin). lia.
Qed.

(** [add_group] leaves one row for the chat, the new one. *)
Lemma add_group_rows (now : Z) (s : store) (chat_id : Z) (chat_title : str)
    (added_by : Z) (f : option (list str)) :
  let new := {| g_id := next_rowid (groups_seq s) (map g_id (groups s));
                g_chat_id := chat_id; g_chat_title := Some chat_title;
                g_is_active := true; g_filter_accounts := filter_json f;
                g_added_at := now; g_added_by := Some added_by;
                g_updated_at := now |} in
  groups (add_group now s chat_id chat_title added_by f).1
  = List.filter (fun r => negb (bool_decide (g_chat_id r = chat_id))) (groups s)
    ++ [new]
  /\ (add_group now s chat_id chat_title added_by f).2 = Some (g_id new)
  /\ List.filter (fun r => bool_decide (g_chat_id r = chat_id))
       (groups (add_group now s chat_id chat_title added_by f).1) = [new].
Proof.
  intros new. split; [reflexivity|]. split; [reflexivity|].
  simpl. rewrite List.filter_app. simpl.
  rewrite bool_decide_eq_true_2 by reflexivity.
  replace (List.filter _ (List.filter _ (groups s))) with (@nil group_row);
    [reflexivity|].
  symmetry. induction (groups s) as [|r l IH]; simpl; [reflexivity|].
  destruct (bool_decide (g_chat_id r = chat_id)) eqn:Hd; simpl; [exact IH|].
  rewrite Hd. exact IH.
Qed.

End DbProps.

(** ** The dispatcher and the acknowledgment handler *)
Module BotProps.
Import Parser Db Watcher Bot DbProps Fixtures.

(** *** Filters *)

Lemma py_in_strings (label : str) (l : list str) :
  py_in label (JArray (map JString l))
  = Some (existsb (fun a => bool_decide (a = label)) l).
Proof.
  simpl. f_equal. induction l as [|a l IH]; simpl; [reflexivity|].
  rewrite IH. reflexivity.
Qed.

Lemma existsb_eq_label (label : str) (l : list str) :
  existsb (fun a => bool_decide (a = label)) l = true <-> In label l.
Proof.
  rewrite existsb_exists. split.
  - intros (x & Hin & Hx). apply bool_decide_eq_true in Hx. subst. exact Hin.
  - intros Hin. exists label. split; [exact Hin|].
    apply bool_decide_eq_true. reflexivity.
Qed.

(** The filter column as the two writers leave it. *)
Lemma should_send_written (g : group_row) (f : option (list str)) (label : str) :
  g_filter_accounts g = filter_json f ->
  should_send_to_group g label
  = match f with
    | Some (a :: l) => existsb (fun x => bool_decide (x = label)) (a :: l)
    | _ => true
    end.
Proof.
  intros Hf. unfold should_send_to_group. rewrite Hf.
  destruct f as [[|a l]|]; try reflexivity.
  unfold filter_json, json_dumps. cbn [text_truthy negb json_loads].
  rewrite py_in_strings. reflexivity.
Qed.

Lemma filters_written_empty : filters_written empty_store.
Proof. constructor. Qed.

Lemma filters_written_add_group (now : Z) (s : store) (c : Z) (title : str)
    (u : Z) (f : option (list str)) :
  filters_written s -> filters_written (add_group now s c title u f).1.
Proof.
  unfold filters_written. simpl. intros Hs. apply Forall_app. split.
  - apply Forall_forall. intros g Hg. apply list_elem_of_In in Hg.
    apply filter_In in Hg as [Hg _].
    rewrite Forall_forall in Hs. apply Hs. apply list_elem_of_In. exact Hg.
  - constructor; [|constructor]. simpl. eauto.
Qed.

Lemma filters_written_update_group_filter (now : Z) (s : store) (c : Z)
    (f : option (list str)) :
  filters_written s -> filters_written (update_group_filter now s c f).1.
Proof.
  unfold filters_written. simpl. intros Hs. apply Forall_map.
  eapply Forall_impl; [exact Hs|]. intros g Hg. simpl.
  destruct (bool_decide (g_chat_id g = c)); [simpl; eauto|exact Hg].
Qed.

Lemma filters_written_remove_group (s : store) (c : Z) :
  filters_written s -> filters_written (remove_group s c).1.
Proof.
  unfold filters_written. simpl. intros Hs. apply Forall_map.
  eapply Forall_impl; [exact Hs|]. intros g Hg. simpl.
  destruct (bool_decide (g_chat_id g = c)); [simpl; exact Hg|exact Hg].
Qed.

(** C5. Filter correctness: on a store whose filters were written by the
    subscription commands, an active group without a filter is eligible
    for every message, and an active group with a filter is eligible for
    a message exactly when the account label of the message is one of the
    labels of the filter. *)
Theorem filter_correctness (s : store) (g : group_row) (label : str) :
  filters_written s ->
  In g (get_active_groups s) ->
  (g_filter_accounts g = None /\ should_send_to_group g label = true)
  \/ (exists labels, labels <> []
        /\ g_filter_accounts g = Some (json_dumps labels)
        /\ (should_send_to_group g label = true <-> In label labels)).
Proof.
  intros Hs Hg. apply filter_In in Hg as [Hg _].
  unfold filters_written in Hs. rewrite Forall_forall in Hs.
  destruct (Hs g) as [f Hf]; [apply list_elem_of_In; exact Hg|].
  pose proof (should_send_written g f label Hf) as Hsend.
  destruct f as [[|a l]|]; simpl in Hf.
  - left. auto.
  - right. exists (a :: l). split; [discriminate|]. split; [exact Hf|].
    rewrite Hsend. apply existsb_eq_label.
  - left. auto.
Qed.

Lemma filter_correctness_witness :
  let s := (update_group_filter 2
              (add_group 1 empty_store (-100) (lit "Sales room") 7 None).1
              (-100) (Some [lit "sales"])).1 in
  let g := {| g_id := 1; g_chat_id := -100;
              g_chat_title := Some (lit "Sales room"); g_is_active := true;
              g_filter_accounts := Some (json_dumps [lit "sales"]);
              g_added_at := 1; g_added_by := Some 7; g_updated_at := 2 |} in
  get_active_groups s = [g]
  /\ ((g_filter_accounts g = None
       /\ should_send_to_group g (lit "support") = true)
      \/ (exists labels, labels <> []
            /\ g_filter_accounts g = Some (json_dumps labels)
            /\ (should_send_to_group g (lit "support") = true
                <-> In (lit "support") labels))).
Proof.
  intros s g. split; [reflexivity|].
  apply (filter_correctness s g (lit "support")).
  - apply filters_written_update_group_filter, filters_written_add_group,
      filters_written_empty.
  - simpl. left. reflexivity.
Defined.

(** The group filtered to "sales" of the specification. *)
Lemma sales_filter_lets_only_sales_through (g : group_row) (label : str) :
  g_filter_accounts g = Some (json_dumps [lit "sales"]) ->
  should_send_to_group g label = true <-> label = lit "sales".
Proof.
  intros Hf. rewrite (should_send_written g (Some [lit "sales"]) label Hf).
  rewrite existsb_eq_label. simpl. split; [intros [->|[]]; reflexivity|auto].
Qed.

(** A group without a filter receives from every account. *)
Lemma unfiltered_group_receives_all (g : group_row) (label : str) :
  g_filter_accounts g = None -> should_send_to_group g label = true.
Proof. intros Hf. unfold should_send_to_group. rewrite Hf. reflexivity. Qed.

(** A text in the column that is not JSON lets every message through. *)
Lemma unreadable_filter_sends_all (g : group_row) (raw label : str) :
  g_filter_accounts g = Some (NotJson raw) -> should_send_to_group g label = true.
Proof.
  intros Hf. unfold should_send_to_group. rewrite Hf.
  destruct raw; reflexivity.
Qed.

(** *** Subscribing again *)

Lemma find_filter_out (c : Z) (rows : list group_row) :
  List.find (fun r => bool_decide (g_chat_id r = c))
    (List.filter (fun r => negb (bool_decide (g_chat_id r = c))) rows) = None.
Proof.
  induction rows as [|r rows IH]; simpl; [reflexivity|].
  destruct (bool_decide (g_chat_id r = c)) eqn:Hd; simpl; [exact IH|].
  rewrite Hd. exact IH.
Qed.

(** C10. Subscribing a chat that already has a row replaces the row: the
    chat is left with exactly one row, the new one, which carries no
    filter whatever filter the old row had, is active, holds the new
    title and subscriber, and has a rowid above every rowid of the table,
    so the old row is gone; the rows of other chats stay.  With
    [add_group] called directly the new row carries the filter that the
    call supplies. *)
Theorem resubscribe_replaces_row (now : Z) (s : store) (old : group_row)
    (chat_type : str) (chat_title : option str) (user_id : Z) :
  In old (groups s) ->
  chat_type = lit "group" \/ chat_type = lit "supergroup" ->
  let s' := (subscribe_command now s chat_type (g_chat_id old) chat_title user_id).1 in
  let new := {| g_id := next_rowid (groups_seq s) (map g_id (groups s));
                g_chat_id := g_chat_id old;
                g_chat_title := Some (or_default chat_title (lit "Unknown Group"));
                g_is_active := true;
                g_filter_accounts := None;
                g_added_at := now;
                g_added_by := Some user_id;
                g_updated_at := now |} in
  List.filter (fun r => bool_decide (g_chat_id r = g_chat_id old)) (groups s') = [new]
  /\ get_group_by_chat_id s' (g_chat_id old) = Some new
  /\ (forall r, In r (groups s) -> g_id r < g_id new)
  /\ ~ In old (groups s')
  /\ (forall r, In r (groups s) -> g_chat_id r <> g_chat_id old -> In r (groups s'))
  /\ (forall (title : str) (f : option (list str)),
       exists row,
         List.filter (fun r => bool_decide (g_chat_id r = g_chat_id old))
           (groups (add_group now s (g_chat_id old) title user_id f).1) = [row]
         /\ g_filter_accounts row = filter_json f
         /\ g_id row = g_id new).
Proof.
  intros Hin Htype s' new.
  destruct (add_group_rows now s (g_chat_id old)
              (or_default chat_title (lit "Unknown Group")) user_id None)
    as (Hrows & _ & Hone).
  assert (Hs' : groups s'
                = groups (add_group now s (g_chat_id old)
                            (or_default chat_title (lit "Unknown Group"))
                            user_id None).1).
  { subst s'. unfold subscribe_command.
    replace (bool_decide (chat_type = lit "group")
             || bool_decide (chat_type = lit "supergroup")) with true.
    - simpl. destruct (_ =? 0); reflexivity.
    - symmetry. apply orb_true_iff.
      destruct Htype as [->| ->]; [left|right]; apply bool_decide_eq_true; reflexivity. }
  assert (Habove : forall r, In r (groups s) -> g_id r < g_id new).
  { intros r Hr. apply next_rowid_above. apply in_map. exact Hr. }
  split; [rewrite Hs'; exact Hone|]. split.
  { unfold get_group_by_chat_id. rewrite Hs', Hrows, find_app, find_filter_out.
    simpl. rewrite bool_decide_eq_true_2 by reflexivity. reflexivity. }
  split; [exact Habove|]. split.
  { rewrite Hs', Hrows. intros Hold. apply in_app_or in Hold as [Hold|[Hold|[]]].
    - apply filter_In in Hold as [_ Hne].
      rewrite bool_decide_eq_true_2 in Hne by reflexivity. discriminate.
    - specialize (Habove old Hin). apply (f_equal g_id) in Hold.
      subst new. simpl in Hold, Habove. lia. }
  split.
  { intros r Hr Hne. rewrite Hs', Hrows. apply in_or_app. left.
    apply filter_In. split; [exact Hr|].
    rewrite bool_decide_eq_false_2 by exact Hne. reflexivity. }
  intros title f.
  destruct (add_group_rows now s (g_chat_id old) title user_id f) as (_ & _ & Hf).
  eexists. split; [exact Hf|]. split; reflexivity.
Qed.

Lemma resubscribe_replaces_row_witness :
  let s := (update_group_filter 2
              (add_group 1 empty_store (-100) (lit "Sales room") 7 None).1
              (-100) (Some [lit "sales"])).1 in
  let s' := (subscribe_command 3 s (lit "supergroup") (-100)
               (Some (lit "Sales room")) 8).1 in
  map g_filter_accounts (groups s) = [Some (json_dumps [lit "sales"])]
  /\ get_group_by_chat_id s' (-100)
     = Some {| g_id := 2; g_chat_id := -100;
               g_chat_title := Some (lit "Sales room"); g_is_active := true;
               g_filter_accounts := None; g_added_at := 3;
               g_added_by := Some 8; g_updated_at := 3 |}.
Proof.
  intros s s'. split; [reflexivity|].
  apply (resubscribe_replaces_row 3 s
           {| g_id := 1; g_chat_id := -100;
              g_chat_title := Some (lit "Sales room"); g_is_active := true;
              g_filter_accounts := Some (json_dumps [lit "sales"]);
              g_added_at := 1; g_added_by := Some 7; g_updated_at := 2 |}
           (lit "supergroup") (Some (lit "Sales room")) 8).
  - simpl. left. reflexivity.
  - right. reflexivity.
Defined.

(** *** Ingestion *)





Lemma add_notification_keeps_unique (now : Z) (s : store) (e g t : Z) :
  deliveries_unique s -> deliveries_unique (add_notification now s e g t).1.
Proof.
  unfold deliveries_unique, add_notification. intros Hs.
  destruct (existsb _ (email_notifications s)) eqn:Hex; [exact Hs|].
  simpl. rewrite map_app. simpl.
  apply NoDup_app. split; [exact Hs|]. split; [|apply NoDup_singleton].
  intros k Hin Hk. apply list_elem_of_In in Hin. apply in_map_iff in Hin as (r & <- & Hr).
  apply list_elem_of_In in Hk. simpl in Hk. destruct Hk as [Hk|[]].
  injection Hk as He Hg.
  assert (Ht : existsb (fun r => bool_decide (n_email_id r = e)
                                 && bool_decide (n_group_id r = g))
                 (email_notifications s) = true).
  { apply existsb_exists. exists r. split; [exact Hr|].
    rewrite !bool_decide_eq_true_2 by congruence. reflexivity. }
  congruence.
Qed.

Lemma add_notification_other_tables (now : Z) (s : store) (e g t : Z) :
  emails (add_notification now s e g t).1 = emails s
  /\ emails_seq (add_notification now s e g t).1 = emails_seq s
  /\ groups (add_notification now s e g t).1 = groups s.
Proof.
  unfold add_notification. destruct (existsb _ _); simpl; auto.
Qed.

Lemma send_keeps_unique (now : Z) (send : Z -> option Z) (s : store) (e g c : Z) :
  deliveries_unique s ->
  deliveries_unique (send_email_notification now send s e g c).1.
Proof.
  unfold send_email_notification. intros Hs.
  destruct (send c); [apply add_notification_keeps_unique|]; exact Hs.
Qed.

Lemma send_other_tables (now : Z) (send : Z -> option Z) (s : store) (e g c : Z) :
  emails (send_email_notification now send s e g c).1 = emails s
  /\ groups (send_email_notification now send s e g c).1 = groups s.
Proof.
  unfold send_email_notification.
  destruct (send c); simpl; [|auto].
  destruct (add_notification_other_tables now s e g z) as (He & _ & Hg). auto.
Qed.

Lemma notify_groups_facts (now : Z) (send : Z -> option Z) (e : Z) (label : str)
    (gs : list group_row) : forall s,
  emails (notify_groups now send e label gs s) = emails s
  /\ groups (notify_groups now send e label gs s) = groups s
  /\ (deliveries_unique s ->
      deliveries_unique (notify_groups now send e label gs s)).
Proof.
  unfold notify_groups. induction gs as [|g gs IH]; intros s; simpl; [auto|].
  destruct (should_send_to_group g label); [|apply IH].
  destruct (negb (email_sent_to_group s e (g_id g))); [|apply IH].
  destruct (IH (send_email_notification now send s e (g_id g) (g_chat_id g)).1)
    as (He & Hg & Hu).
  destruct (send_other_tables now send s e (g_id g) (g_chat_id g)) as [He' Hg'].
  split; [congruence|]. split; [congruence|].
  intros Hs. apply Hu. apply send_keeps_unique. exact Hs.
Qed.

Section Ingestion.
Context `{Sha256} `{Mailparser}.

(** The clock enters the parsed record through the date alone. *)
Lemma parse_email_clock (self : EmailParser) (now1 now2 : Z) (raw : bytes)
    (p1 : parsed_email) :
  parse_email self now1 raw = Some p1 ->
  exists p2, parse_email self now2 raw = Some p2
    /\ message_id p2 = message_id p1 /\ sender p2 = sender p1
    /\ subject p2 = subject p1 /\ is_spam p2 = is_spam p1.
Proof.
  unfold parse_email. destruct (parse_from_bytes raw) as [m|]; [|discriminate].
  intros [= <-]. eexists. split; [reflexivity|]. simpl. auto.
Qed.

Lemma email_exists_by_message_id (s : store) (old : email_row) (m snd subj : str) :
  In old (emails s) -> e_message_id old = m -> email_exists s m snd subj = true.
Proof.
  intros Hin Hm. unfold email_exists. apply count_pos. exists old.
  split; [exact Hin|]. rewrite (bool_decide_eq_true_2 _ Hm). apply orb_true_r.
Qed.

Lemma email_exists_by_hash (s : store) (old : email_row) (m snd subj : str) :
  In old (emails s) -> e_email_hash old = generate_email_hash m snd subj ->
  email_exists s m snd subj = true.
Proof.
  intros Hin Hh. unfold email_exists. apply count_pos. exists old.
  split; [exact Hin|]. rewrite (bool_decide_eq_true_2 _ Hh). reflexivity.
Qed.

(** A message that the duplicate check lets through is not dispatched
    at all when the check answers true. *)
Lemma process_email_existing (self : TelegramBot) (now : Z)
    (send : Z -> option Z) (s : store) (item : email_data) (parsed : parsed_email) :
  parse_email (parser self) now (raw_email item) = Some parsed ->
  email_exists s (message_id parsed) (sender parsed) (subject parsed) = true ->
  process_email self now send s item = s.
Proof.
  intros Hp He. unfold process_email. rewrite Hp, He.
  destruct (is_spam parsed); reflexivity.
Qed.

(** C9. The duplicate check answers true as soon as a stored email has
    the message identifier of the candidate, whatever the sender, the
    subject and the fingerprint of either; the dispatcher then leaves the
    store as it is: no email row, no notification row. *)
Theorem duplicate_by_message_id_alone (self : TelegramBot) (now : Z)
    (send : Z -> option Z) (s : store) (item : email_data)
    (parsed : parsed_email) (old : email_row) :
  parse_email (parser self) now (raw_email item) = Some parsed ->
  In old (emails s) ->
  e_message_id old = message_id parsed ->
  email_exists s (message_id parsed) (sender parsed) (subject parsed) = true
  /\ process_email self now send s item = s.
Proof.
  intros Hp Hin Hm.
  assert (He : email_exists s (message_id parsed) (sender parsed) (subject parsed)
               = true) by (eapply email_exists_by_message_id; eauto).
  split; [exact He|]. eapply process_email_existing; eauto.
Qed.

Lemma add_email_fresh (now : Z) (s : store) (m acct snd subj prev : str) (date : Z) :
  email_exists s m snd subj = false ->
  exists row,
    add_email now s m acct snd subj prev date
    = (set_emails s (emails s ++ [row]) (e_id row), Some (e_id row))
    /\ e_email_hash row = generate_email_hash m snd subj
    /\ e_message_id row = m.
Proof.
  intros He. unfold add_email.
  destruct (List.find _ (emails s)) as [existing|] eqn:Hf.
  - apply find_some in Hf as [Hin Hh]. apply bool_decide_eq_true in Hh.
    rewrite (email_exists_by_hash s existing m snd subj Hin Hh) in He. discriminate.
  - exists {| e_id := next_rowid (emails_seq s) (map e_id (emails s));
              e_message_id := m; e_email_account := acct; e_sender := snd;
              e_subject := subj; e_body_preview := Some prev;
              e_received_date := date; e_created_at := now;
              e_email_hash := generate_email_hash m snd subj |}.
    split; [reflexivity|]. split; reflexivity.
Qed.

(** What one turn does with a message that is new and not spam: one email
    row is appended, and the notifications stay distinct. *)
Lemma process_email_new (self : TelegramBot) (now : Z) (send : Z -> option Z)
    (s : store) (item : email_data) (parsed : parsed_email) :
  parse_email (parser self) now (raw_email item) = Some parsed ->
  is_spam parsed = false ->
  email_exists s (message_id parsed) (sender parsed) (subject parsed) = false ->
  exists row,
    emails (process_email self now send s item) = emails s ++ [row]
    /\ e_email_hash row
       = generate_email_hash (message_id parsed) (sender parsed) (subject parsed)
    /\ (deliveries_unique s ->
        deliveries_unique (process_email self now send s item)).
Proof.
  intros Hp Hspam He. unfold process_email. rewrite Hp, Hspam, He.
  destruct (add_email_fresh now s (message_id parsed)
              (account_label item ++ lit " (" ++ account_email item ++ lit ")")
              (sender parsed) (subject parsed) (body_preview parsed)
              (received_date parsed) He) as (row & Hadd & Hh & _).
  rewrite Hadd. exists row.
  destruct (e_id row =? 0).
  - split; [reflexivity|]. split; [exact Hh|]. intros Hu. exact Hu.
  - destruct (notify_groups_facts now send (e_id row) (account_label item)
                (get_active_groups (set_emails s (emails s ++ [row]) (e_id row)))
                (set_emails s (emails s ++ [row]) (e_id row))) as (Hem & _ & Hu).
    split; [exact Hem|]. split; [exact Hh|]. intros Hs. apply Hu. exact Hs.
Qed.


End Ingestion.

(** *** The turns of the dispatcher on a small store *)

Lemma duplicate_by_message_id_alone_witness :
  let s := set_emails (add_group 1 empty_store (-100) (lit "Room") 7 None).1
             [stored_under_same_id] 1 in
  e_email_hash stored_under_same_id
  <> @generate_email_hash plain_digest (lit "<m1@example.org>")
       (lit "Alice <alice@example.org>") (lit "Quarterly figures")
  /\ @process_email plain_digest one_message bot 5 (fun _ => Some 900) s
       item_of_sales = s.
Proof.
  intros s. split; [discriminate|].
  eapply (@duplicate_by_message_id_alone plain_digest one_message bot 5
            (fun _ => Some 900) s item_of_sales _ stored_under_same_id).
  - reflexivity.
  - simpl. left. reflexivity.
  - reflexivity.
Defined.


End BotProps.

(** ** The account watcher *)
Module WatcherProps.
Import Parser Watcher.

Lemma connect_ok (messages : list Z) (w : EmailWatcher) :
  connect (ConnectOk messages) w
  = ({| label := label w; email := email w; client := true;
        last_seen_uids := list_to_set messages |}, None).
Proof. reflexivity. Qed.

Lemma fetch_one_Some (w : EmailWatcher) (fetch : Z -> fetch_io) (u : Z)
    (d : email_data) :
  fetch_one w fetch u = Some d <->
  exists raw, fetch u = FetchOk raw
    /\ d = {| account_label := label w; account_email := email w;
              raw_email := raw; uid := u |}.
Proof.
  unfold fetch_one. destruct (fetch u) as [raw| | |]; split.
  - intros [= <-]. eauto.
  - intros (raw' & [= <-] & ->). reflexivity.
  - discriminate.
  - intros (raw' & Hf & _). discriminate.
  - discriminate.
  - intros (raw' & Hf & _). discriminate.
  - discriminate.
  - intros (raw' & Hf & _). discriminate.
Qed.

Lemma omap_uids_NoDup (w : EmailWatcher) (fetch : Z -> fetch_io) (l : list Z) :
  NoDup l -> NoDup (map uid (omap (fetch_one w fetch) l)).
Proof.
  induction 1 as [|u l Hnotin Hnd IH]; simpl; [constructor|].
  destruct (fetch_one w fetch u) as [d|] eqn:Hd; [|exact IH].
  simpl. constructor; [|exact IH].
  apply fetch_one_Some in Hd as (raw & _ & ->). simpl.
  intros Hin. apply Hnotin.
  apply list_elem_of_fmap in Hin as (d' & Hu & Hd').
  apply list_elem_of_omap in Hd' as (u' & Hu' & Hf).
  apply fetch_one_Some in Hf as (raw' & _ & ->). simpl in Hu. subst. exact Hu'.
Qed.

(** One check on a connected watcher whose search succeeds. *)
Lemma check_connected (io : check_io) (w : EmailWatcher) (messages : list Z) :
  client w = true ->
  io_search io = SearchOk messages ->
  let current_uids : gset Z := list_to_set messages in
  let w' := (check_new_emails io w).1 in
  let new_emails := (check_new_emails io w).2 in
  (forall u, u ∈ map uid new_emails <->
             u ∈ current_uids /\ (u ∉ last_seen_uids w)
             /\ exists raw, io_fetch io u = FetchOk raw)
  /\ NoDup (map uid new_emails)
  /\ (current_uids ∖ last_seen_uids w = ∅ -> last_seen_uids w' = last_seen_uids w)
  /\ (current_uids ∖ last_seen_uids w <> ∅ -> last_seen_uids w' = current_uids)
  /\ client w' = true.
Proof.
  intros Hc Hs current_uids w' new_emails.
  subst w' new_emails. unfold check_new_emails. rewrite Hc, Hs.
  fold current_uids.
  destruct (bool_decide (current_uids ∖ last_seen_uids w = ∅)) eqn:Hd.
  - apply bool_decide_eq_true in Hd. simpl.
    split; [|split; [constructor|split; [auto|split; [congruence|exact Hc]]]].
    intros u. split.
    + intros Hu. inversion Hu.
    + intros (Hu & Hn & _). exfalso.
      assert (u ∈ current_uids ∖ last_seen_uids w) by set_solver.
      rewrite Hd in *. set_solver.
  - apply bool_decide_eq_false in Hd. simpl.
    split; [|split; [|split; [congruence|split; [auto|exact Hc]]]].
    + intros u. rewrite list_elem_of_fmap. split.
      * intros (d & -> & Hd'). apply list_elem_of_omap in Hd' as (u' & Hu' & Hf).
        apply fetch_one_Some in Hf as (raw & Hraw & ->). simpl.
        apply elem_of_elements in Hu'. apply elem_of_difference in Hu' as [Hu1 Hu2].
        split; [exact Hu1|]. split; [exact Hu2|]. eauto.
      * intros (Hu & Hn & raw & Hraw).
        exists {| account_label := label w; account_email := email w;
                  raw_email := raw; uid := u |}.
        split; [reflexivity|]. apply list_elem_of_omap. exists u. split.
        -- apply elem_of_elements. set_solver.
        -- apply fetch_one_Some. eauto.
    + apply omap_uids_NoDup. apply NoDup_elements.
Qed.

(** An identifier of the watermark that every search of the connection
    lists stays in the watermark and is in no batch. *)
Lemma listed_watermark_never_emitted (x : Z) : forall (ios : list check_io)
    (w : EmailWatcher),
  client w = true ->
  x ∈ last_seen_uids w ->
  Forall (fun io => exists messages,
            io_search io = SearchOk messages /\ x ∈ messages) ios ->
  forall batch, In batch (polling_loop ios w).2 -> x ∉ map uid batch.
Proof.
  induction ios as [|io ios IH]; intros w Hc Hx Hall batch Hb; simpl in Hb.
  - destruct Hb.
  - apply Forall_cons in Hall as [(messages & Hs & Hin) Hall].
    destruct (check_connected io w messages Hc Hs) as (Hem & _ & Hsame & Hnew & Hc').
    destruct (check_new_emails io w) as [w1 batch1] eqn:Hchk. simpl in *.
    destruct (polling_loop ios w1) as [w2 rest] eqn:Hloop. simpl in Hb.
    destruct Hb as [<-|Hb].
    + intros Hu. apply Hem in Hu as (_ & Hn & _). contradiction.
    + apply (IH w1 Hc'); [|exact Hall|rewrite Hloop; exact Hb].
      destruct (decide (list_to_set messages ∖ last_seen_uids w = (∅ : gset Z)))
        as [He|Hne].
      * rewrite (Hsame He). exact Hx.
      * rewrite (Hnew Hne). apply elem_of_list_to_set. exact Hin.
Qed.

(** The watermark is left alone by a check that finds nothing new, even
    when the mailbox has shrunk; and an identifier that was there at
    connect time, went away and came back is emitted. *)
Lemma watermark_counterexample :
  let w0 := (connect (ConnectOk [1; 2]) (EmailWatcher_init (lit "A") (lit "a@x.com"))).1 in
  let check (messages : list Z) :=
    {| io_connect := ConnectRaises false false;
       io_search := SearchOk messages;
       io_fetch := fun _ => FetchOk [] |} in
  (elements (last_seen_uids (check_new_emails (check [1]) w0).1) = [2; 1]
   /\ (check_new_emails (check [1]) w0).2 = []
   /\ last_seen_uids (check_new_emails (check [1]) w0).1 <> list_to_set [1])
  /\ (1 ∈ last_seen_uids w0
      /\ map (map uid) (polling_loop [check [2; 3]; check [1; 2; 3]] w0).2
         = [[3]; [1]]).
Proof.
  intros w0 check. split; [split; [|split]|split].
  - vm_compute. reflexivity.
  - vm_compute. reflexivity.
  - intros Heq.
    assert (H2 : 2 ∈ last_seen_uids (check_new_emails (check [1]) w0).1)
      by (vm_compute; reflexivity).
    rewrite Heq in H2. set_solver.
  - vm_compute. reflexivity.
  - vm_compute. reflexivity.
Qed.

(** C4 (amended). [connect] takes the identifiers that the search returns
    as the watermark.  A check on a connected watcher whose search
    succeeds emits, once each, exactly the identifiers of the current set
    that are not in the watermark and whose fetch succeeds; an identifier
    whose fetch fails is left out and the others are still emitted.  The
    watermark becomes the current set when the check found an identifier
    outside the watermark, and stays as it was when it found none.  An
    identifier of the watermark that every search of the connection lists
    is never emitted. *)
Theorem watermark_correctness :
  (forall (messages : list Z) (w : EmailWatcher),
     let w' := (connect (ConnectOk messages) w).1 in
     client w' = true /\ last_seen_uids w' = list_to_set messages)
  /\ (forall (io : check_io) (w : EmailWatcher) (messages : list Z),
       client w = true ->
       io_search io = SearchOk messages ->
       let current_uids : gset Z := list_to_set messages in
       let w' := (check_new_emails io w).1 in
       let new_emails := (check_new_emails io w).2 in
       (forall u, u ∈ map uid new_emails <->
                  u ∈ current_uids /\ (u ∉ last_seen_uids w)
                  /\ exists raw, io_fetch io u = FetchOk raw)
       /\ NoDup (map uid new_emails)
       /\ (current_uids ∖ last_seen_uids w = ∅ ->
           last_seen_uids w' = last_seen_uids w)
       /\ (current_uids ∖ last_seen_uids w <> ∅ ->
           last_seen_uids w' = current_uids)
       /\ client w' = true)
  /\ (forall (x : Z) (ios : list check_io) (w : EmailWatcher),
       client w = true ->
       x ∈ last_seen_uids w ->
       Forall (fun io => exists messages,
                 io_search io = SearchOk messages /\ x ∈ messages) ios ->
       forall batch, In batch (polling_loop ios w).2 -> x ∉ map uid batch).
Proof.
  split; [|split].
  - intros messages w. simpl. auto.
  - apply check_connected.
  - apply listed_watermark_never_emitted.
Qed.

(** A failed fetch drops its identifier and nothing else; the identifier
    is in the watermark afterwards and is not asked for again. *)
Lemma failed_fetch_is_skipped :
  let w0 := (connect (ConnectOk [1; 2]) (EmailWatcher_init (lit "A") (lit "a@x.com"))).1 in
  let io (messages : list Z) :=
    {| io_connect := ConnectRaises false false;
       io_search := SearchOk messages;
       io_fetch := fun u => if u =? 7 then FetchRaises else FetchOk [] |} in
  map (map uid) (polling_loop [io [1; 2; 7; 8]; io [1; 2; 7; 8]] w0).2 = [[8]; []].
Proof. vm_compute. reflexivity. Qed.

End WatcherProps.

(** ** More on the store: round trips, soft deletion, cleanup, invariants *)
Module StoreProps.
Import Parser Db Maintenance Bot DbProps BotProps.

Lemma sent_iff (s : store) (e g : Z) :
  email_sent_to_group s e g = true <->
  exists r, In r (email_notifications s) /\ n_email_id r = e /\ n_group_id r = g.
Proof.
  unfold email_sent_to_group. rewrite count_pos. split.
  - intros (r & Hin & Hp). apply andb_true_iff in Hp as [H1 H2].
    apply bool_decide_eq_true in H1. apply bool_decide_eq_true in H2. eauto.
  - intros (r & Hin & H1 & H2). exists r. split; [exact Hin|].
    rewrite !bool_decide_eq_true_2 by assumption. reflexivity.
Qed.

Lemma sent_existsb (s : store) (e g : Z) :
  existsb (fun r => bool_decide (n_email_id r = e) && bool_decide (n_group_id r = g))
          (email_notifications s)
  = email_sent_to_group s e g.
Proof.
  destruct (email_sent_to_group s e g) eqn:Hs.
  - apply sent_iff in Hs as (r & Hin & H1 & H2). apply existsb_exists.
    exists r. split; [exact Hin|].
    rewrite !bool_decide_eq_true_2 by assumption. reflexivity.
  - destruct (existsb _ _) eqn:Hex; [|reflexivity].
    apply existsb_exists in Hex as (r & Hin & Hp).
    apply andb_true_iff in Hp as [H1 H2].
    apply bool_decide_eq_true in H1. apply bool_decide_eq_true in H2.
    assert (Ht : email_sent_to_group s e g = true) by (apply sent_iff; eauto).
    congruence.
Qed.

Lemma add_notification_sent (now : Z) (s : store) (e g t : Z) :
  email_sent_to_group (add_notification now s e g t).1 e g = true.
Proof.
  unfold add_notification. rewrite sent_existsb.
  destruct (email_sent_to_group s e g) eqn:Hs; simpl; [exact Hs|].
  apply sent_iff. eexists.
  split; [simpl; apply in_or_app; right; left; reflexivity|]. split; reflexivity.
Qed.


Lemma find_map_deactivate (c : Z) (rows : list group_row) :
  List.find (fun r => bool_decide (g_chat_id r = c))
    (map (fun r => if bool_decide (g_chat_id r = c) then deactivate r else r) rows)
  = option_map deactivate
      (List.find (fun r => bool_decide (g_chat_id r = c)) rows).
Proof.
  induction rows as [|r rows IH]; simpl; [reflexivity|].
  destruct (bool_decide (g_chat_id r = c)) eqn:Hd; simpl; rewrite Hd;
    [reflexivity|exact IH].
Qed.

Lemma remove_group_active (s : store) (chat_id : Z) (g : group_row) :
  In g (get_active_groups (remove_group s chat_id).1) <->
  In g (get_active_groups s) /\ g_chat_id g <> chat_id.
Proof.
  unfold get_active_groups. simpl.
  rewrite !filter_In, in_map_iff. split.
  - intros [(g0 & Hg0 & Hin0) Hact].
    destruct (bool_decide (g_chat_id g0 = chat_id)) eqn:Hd.
    + subst g. simpl in Hact. discriminate.
    + subst g. apply bool_decide_eq_false in Hd. auto.
  - intros [[Hin Hact] Hne]. split; [|exact Hact].
    exists g. split; [|exact Hin].
    rewrite bool_decide_eq_false_2 by exact Hne. reflexivity.
Qed.

(** X2. [remove_group] is a soft deletion: the row of the chat stays in
    the table, with its rowid and its filter, and only loses the active
    flag, so it leaves [get_active_groups] while the active groups of
    other chats stay as they are; emails and notifications are not
    touched.  The result tells whether a row of the chat exists, active
    or not, so a second removal answers like the first. *)
Theorem remove_group_soft_delete (s : store) (chat_id : Z) :
  let s' := (remove_group s chat_id).1 in
  ((remove_group s chat_id).2 = true <->
   exists g, In g (groups s) /\ g_chat_id g = chat_id)
  /\ (remove_group s' chat_id).2 = (remove_group s chat_id).2
  /\ get_group_by_chat_id s' chat_id
     = option_map deactivate (get_group_by_chat_id s chat_id)
  /\ (forall g, In g (get_active_groups s') <->
                In g (get_active_groups s) /\ g_chat_id g <> chat_id)
  /\ emails s' = emails s
  /\ email_notifications s' = email_notifications s.
Proof.
  intros s'.
  assert (Hres : forall s0, (remove_group s0 chat_id).2 = true <->
            exists g, In g (groups s0) /\ g_chat_id g = chat_id).
  { intros s0. simpl. rewrite count_pos. split.
    - intros (g & Hin & Hg). apply bool_decide_eq_true in Hg. eauto.
    - intros (g & Hin & Hg). exists g. split; [exact Hin|].
      apply bool_decide_eq_true. exact Hg. }
  split; [apply Hres|]. split.
  { destruct ((remove_group s chat_id).2) eqn:H1.
    - apply Hres. apply Hres in H1 as (g & Hin & Hg). subst s'. simpl.
      exists (deactivate g). split; [|exact Hg].
      apply in_map_iff. exists g. split; [|exact Hin].
      rewrite bool_decide_eq_true_2 by exact Hg. reflexivity.
    - destruct ((remove_group s' chat_id).2) eqn:H2; [|reflexivity].
      apply Hres in H2 as (g & Hin & Hg). subst s'. simpl in Hin.
      apply in_map_iff in Hin as (g0 & Hg0 & Hin0).
      assert (Ht : (remove_group s chat_id).2 = true).
      { apply Hres. exists g0. split; [exact Hin0|].
        destruct (bool_decide (g_chat_id g0 = chat_id)) eqn:Hd.
        - apply bool_decide_eq_true in Hd. exact Hd.
        - subst g. exact Hg. }
      congruence. }
  split; [apply find_map_deactivate|]. split; [|split; reflexivity].
  intros g. apply remove_group_active.
Qed.

Lemma update_group_filter_eligible (now : Z) (s : store) (chat_id : Z)
    (filter_accounts : option (list str)) (g : group_row) (label : str) :
  In g (groups (update_group_filter now s chat_id filter_accounts).1) ->
  g_chat_id g = chat_id ->
  (should_send_to_group g label = true <->
   match filter_accounts with
   | Some (a :: l) => In label (a :: l)
   | _ => True
   end).
Proof.
  intros Hin Hc. simpl in Hin.
  apply in_map_iff in Hin as (g0 & Hg0 & Hin0).
  destruct (bool_decide (g_chat_id g0 = chat_id)) eqn:Hd.
  - rewrite (should_send_written g filter_accounts label)
      by (subst g; reflexivity).
    destruct filter_accounts as [[|a l]|]; try tauto.
    apply existsb_eq_label.
  - apply bool_decide_eq_false in Hd. subst g. contradiction.
Qed.

(** X3. [update_group_filter] changes the filter of the rows of the chat
    and nothing else in the table: rowids, chat identifiers and active
    flags stay.  Afterwards a row of the chat is eligible for a label
    exactly when no labels were given ([None] or the empty list) or the
    label is one of them; rows of other chats are as before.  The result
    tells whether a row of the chat exists. *)
Theorem update_group_filter_spec (now : Z) (s : store) (chat_id : Z)
    (filter_accounts : option (list str)) :
  let s' := (update_group_filter now s chat_id filter_accounts).1 in
  ((update_group_filter now s chat_id filter_accounts).2 = true <->
   exists g, In g (groups s) /\ g_chat_id g = chat_id)
  /\ map g_id (groups s') = map g_id (groups s)
  /\ map g_chat_id (groups s') = map g_chat_id (groups s)
  /\ map g_is_active (groups s') = map g_is_active (groups s)
  /\ (forall g label, In g (groups s') -> g_chat_id g = chat_id ->
        (should_send_to_group g label = true <->
         match filter_accounts with
         | Some (a :: l) => In label (a :: l)
         | _ => True
         end))
  /\ (forall g, g_chat_id g <> chat_id -> In g (groups s') <-> In g (groups s)).
Proof.
  intros s'. split.
  { simpl. rewrite count_pos. split.
    - intros (g & Hin & Hg). apply bool_decide_eq_true in Hg. eauto.
    - intros (g & Hin & Hg). exists g. split; [exact Hin|].
      apply bool_decide_eq_true. exact Hg. }
  assert (Hmap : forall (B : Type) (k : group_row -> B),
            (forall f r, k (with_filter now f r) = k r) ->
            map k (groups s') = map k (groups s)).
  { intros B k Hk. subst s'. simpl. rewrite map_map. apply map_ext.
    intros r. destruct (bool_decide (g_chat_id r = chat_id)); [apply Hk|reflexivity]. }
  split; [apply Hmap; reflexivity|]. split; [apply Hmap; reflexivity|].
  split; [apply Hmap; reflexivity|]. split.
  - intros g label Hin Hc. subst s'.
    apply (update_group_filter_eligible now s chat_id filter_accounts g label Hin Hc).
  - intros g Hne. subst s'. simpl. rewrite in_map_iff. split.
    + intros (g0 & Hg0 & Hin0).
      destruct (bool_decide (g_chat_id g0 = chat_id)) eqn:Hd.
      * subst g. simpl in Hne. apply bool_decide_eq_true in Hd. contradiction.
      * subst g. exact Hin0.
    + intros Hin. exists g. split; [|exact Hin].
      rewrite bool_decide_eq_false_2 by exact Hne. reflexivity.
Qed.

Section Fingerprints.
Context `{Sha256}.

Lemma add_email_same_hash (now1 now2 : Z) (s : store)
    (m1 m2 acct1 acct2 snd1 snd2 subj1 subj2 prev1 prev2 : str) (date1 date2 : Z) :
  generate_email_hash m1 snd1 subj1 = generate_email_hash m2 snd2 subj2 ->
  let first := add_email now1 s m1 acct1 snd1 subj1 prev1 date1 in
  let second := add_email now2 first.1 m2 acct2 snd2 subj2 prev2 date2 in
  second.1 = first.1 /\ second.2 = first.2.
Proof.
  intros Hh first second. subst second first. unfold add_email.
  rewrite <- Hh.
  destruct (List.find _ (emails s)) as [existing|] eqn:Hf.
  - simpl. rewrite Hf. simpl. split; reflexivity.
  - simpl. rewrite find_app, Hf. simpl.
    rewrite bool_decide_eq_true_2 by reflexivity. simpl. split; reflexivity.
Qed.

(** X4. The fingerprint is the digest of the three fields joined by "|",
    so two messages whose joined texts are equal have one fingerprint,
    whatever the digest: once the first is stored, the duplicate check
    reports the second as present and [add_email] returns the identity of
    the first without inserting. *)
Theorem fingerprint_joins_fields (now1 now2 : Z) (s : store)
    (m1 m2 acct1 acct2 snd1 snd2 subj1 subj2 prev1 prev2 : str) (date1 date2 : Z) :
  m1 ++ lit "|" ++ snd1 ++ lit "|" ++ subj1
  = m2 ++ lit "|" ++ snd2 ++ lit "|" ++ subj2 ->
  let first := add_email now1 s m1 acct1 snd1 subj1 prev1 date1 in
  let second := add_email now2 first.1 m2 acct2 snd2 subj2 prev2 date2 in
  generate_email_hash m1 snd1 subj1 = generate_email_hash m2 snd2 subj2
  /\ email_exists first.1 m2 snd2 subj2 = true
  /\ second.1 = first.1
  /\ second.2 = first.2.
Proof.
  intros Hjoin first second.
  assert (Hh : generate_email_hash m1 snd1 subj1 = generate_email_hash m2 snd2 subj2).
  { unfold generate_email_hash. rewrite Hjoin. reflexivity. }
  split; [exact Hh|].
  destruct (add_email_same_hash now1 now2 s m1 m2 acct1 acct2 snd1 snd2
              subj1 subj2 prev1 prev2 date1 date2 Hh) as [Hs Hr].
  split; [|split; [exact Hs|exact Hr]].
  destruct (add_email_idempotent now1 now1 s m1 acct1 acct1 snd1 subj1 prev1 prev1
              date1 date1) as (_ & _ & id & row & _ & Hin & _ & Hrow).
  apply (email_exists_by_hash _ row); [exact Hin|]. congruence.
Qed.


End Fingerprints.

(** *** Cleanup *)


(** *** Invariants of the store *)

Lemma NoDup_map_filter {A K : Type} (k : A -> K) (p : A -> bool) (l : list A) :
  NoDup (map k l) -> NoDup (map k (List.filter p l)).
Proof.
  induction l as [|a l IH]; simpl; intros Hnd; [constructor|].
  apply NoDup_cons in Hnd as [Hnotin Hnd].
  destruct (p a); simpl; [|apply IH; exact Hnd].
  apply NoDup_cons. split; [|apply IH; exact Hnd].
  intros Hin. apply Hnotin. apply list_elem_of_In in Hin.
  apply in_map_iff in Hin as (x & Hx & Hxin). apply filter_In in Hxin as [Hxin _].
  apply list_elem_of_In. apply in_map_iff. eauto.
Qed.

Lemma Forall_map_filter {A K : Type} (P : K -> Prop) (k : A -> K) (p : A -> bool)
    (l : list A) :
  Forall P (map k l) -> Forall P (map k (List.filter p l)).
Proof.
  rewrite !Forall_forall. intros Hall x Hx. apply Hall.
  apply list_elem_of_In in Hx. apply in_map_iff in Hx as (a & Ha & Hin).
  apply filter_In in Hin as [Hin _]. apply list_elem_of_In. apply in_map_iff. eauto.
Qed.

(** A row appended under the next rowid keeps the keys distinct and
    below the new counter. *)
Lemma append_keys {A : Type} (k : A -> Z) (l kept : list A) (seq : Z) (z : A) :
  Forall (fun id => id <= seq) (map k l) ->
  (forall x, In x kept -> In x l) ->
  NoDup (map k kept) ->
  k z = next_rowid seq (map k l) ->
  NoDup (map k (kept ++ [z]))
  /\ Forall (fun id => id <= k z) (map k (kept ++ [z])).
Proof.
  intros Hle Hsub Hnd Hz.
  destruct (next_rowid_above seq (map k l)) as [Hseq Hids].
  assert (Hlt : forall x, In x kept -> k x < k z).
  { intros x Hx. rewrite Hz. apply Hids. apply in_map. apply Hsub. exact Hx. }
  rewrite map_app. simpl. split.
  - apply NoDup_app. split; [exact Hnd|]. split; [|apply NoDup_singleton].
    intros y Hy Hy'. apply list_elem_of_In in Hy.
    apply in_map_iff in Hy as (x & <- & Hx).
    apply list_elem_of_In in Hy'. simpl in Hy'. destruct Hy' as [Hy'|[]].
    specialize (Hlt x Hx). lia.
  - apply Forall_app. split.
    + apply Forall_forall. intros y Hy. apply list_elem_of_In in Hy.
      apply in_map_iff in Hy as (x & <- & Hx). specialize (Hlt x Hx). lia.
    + constructor; [lia|constructor].
Qed.

Lemma keys_ok_empty : keys_ok empty_store.
Proof. unfold keys_ok. simpl. repeat split; constructor. Qed.

Lemma store_ok_empty : store_ok empty_store.
Proof.
  unfold store_ok, hashes_unique, chats_unique, deliveries_unique, filters_written.
  simpl. repeat split; try constructor; try lia; apply keys_ok_empty.
Qed.

Section Preservation.
Context `{Sha256}.

Lemma store_ok_add_email (now : Z) (s : store) (m acct snd subj prev : str) (date : Z) :
  store_ok s -> store_ok (add_email now s m acct snd subj prev date).1.
Proof.
  intros (Hh & Hc & Hd & Hk & Hf & H1 & H2 & H3).
  pose proof (add_email_keeps_hashes_unique now s m acct snd subj prev date Hh) as Hh'.
  destruct Hk as (K1 & K2 & K3 & K4 & K5 & K6).
  unfold add_email in *.
  destruct (List.find _ (emails s)) as [existing|] eqn:Hfind.
  - simpl. unfold store_ok, keys_ok. repeat split; assumption.
  - simpl in *.
    destruct (append_keys e_id (emails s) (emails s) (emails_seq s)
                {| e_id := next_rowid (emails_seq s) (map e_id (emails s));
                   e_message_id := m; e_email_account := acct; e_sender := snd;
                   e_subject := subj; e_body_preview := Some prev;
                   e_received_date := date; e_created_at := now;
                   e_email_hash := generate_email_hash m snd subj |})
      as [N1 N2]; auto.
    destruct (next_rowid_above (emails_seq s) (map e_id (emails s))) as [Hseq _].
    split; [exact Hh'|]. split; [exact Hc|]. split; [exact Hd|].
    split; [repeat split; assumption|].
    split; [exact Hf|]. repeat split; simpl; try assumption. lia.
Qed.

Lemma store_ok_add_group (now : Z) (s : store) (c : Z) (title : str) (u : Z)
    (f : option (list str)) :
  store_ok s -> store_ok (add_group now s c title u f).1.
Proof.
  intros (Hh & Hc & Hd & Hk & Hf & H1 & H2 & H3).
  pose proof (filters_written_add_group now s c title u f Hf) as Hf'.
  destruct Hk as (K1 & K2 & K3 & K4 & K5 & K6).
  set (kept := List.filter (fun r => negb (bool_decide (g_chat_id r = c))) (groups s)).
  set (row := {| g_id := next_rowid (groups_seq s) (map g_id (groups s));
                 g_chat_id := c; g_chat_title := Some title; g_is_active := true;
                 g_filter_accounts := filter_json f; g_added_at := now;
                 g_added_by := Some u; g_updated_at := now |}).
  destruct (append_keys g_id (groups s) kept (groups_seq s) row) as [N1 N2]; auto.
  { intros x Hx. apply filter_In in Hx as [Hx _]. exact Hx. }
  { apply NoDup_map_filter. exact K3. }
  destruct (next_rowid_above (groups_seq s) (map g_id (groups s))) as [Hseq _].
  split; [exact Hh|]. split.
  { unfold chats_unique. simpl. fold kept. rewrite map_app. simpl.
    apply NoDup_app. split; [apply NoDup_map_filter; exact Hc|].
    split; [|apply NoDup_singleton].
    intros y Hy Hy'. apply list_elem_of_In in Hy.
    apply in_map_iff in Hy as (x & <- & Hx). apply filter_In in Hx as [_ Hx].
    apply list_elem_of_In in Hy'. simpl in Hy'. destruct Hy' as [Hy'|[]].
    rewrite bool_decide_eq_true_2 in Hx by (symmetry; exact Hy'). discriminate. }
  split; [exact Hd|]. split; [repeat split; assumption|].
  split; [exact Hf'|]. repeat split; simpl; try assumption. lia.
Qed.

Lemma store_ok_same_keys (s s' : store) :
  store_ok s ->
  emails s' = emails s -> emails_seq s' = emails_seq s ->
  map g_id (groups s') = map g_id (groups s) ->
  map g_chat_id (groups s') = map g_chat_id (groups s) ->
  groups_seq s' = groups_seq s ->
  filters_written s' ->
  map n_id (email_notifications s') = map n_id (email_notifications s) ->
  map (fun r => (n_email_id r, n_group_id r)) (email_notifications s')
  = map (fun r => (n_email_id r, n_group_id r)) (email_notifications s) ->
  email_notifications_seq s' = email_notifications_seq s ->
  store_ok s'.
Proof.
  intros (Hh & Hc & Hd & Hk & Hf & H1 & H2 & H3) E1 E2 E3 E4 E5 Hf' E6 E7 E8.
  destruct Hk as (K1 & K2 & K3 & K4 & K5 & K6).
  unfold store_ok, hashes_unique, chats_unique, deliveries_unique, keys_ok.
  rewrite E1, E2, E3, E4, E5, E6, E7, E8.
  repeat split; assumption.
Qed.

Lemma store_ok_remove_group (s : store) (c : Z) :
  store_ok s -> store_ok (remove_group s c).1.
Proof.
  intros Hs. apply (store_ok_same_keys s); try reflexivity; try exact Hs.
  - simpl. rewrite map_map. apply map_ext. intros r.
    destruct (bool_decide (g_chat_id r = c)); reflexivity.
  - simpl. rewrite map_map. apply map_ext. intros r.
    destruct (bool_decide (g_chat_id r = c)); reflexivity.
  - apply filters_written_remove_group. apply Hs.
Qed.

Lemma store_ok_update_group_filter (now : Z) (s : store) (c : Z)
    (f : option (list str)) :
  store_ok s -> store_ok (update_group_filter now s c f).1.
Proof.
  intros Hs. apply (store_ok_same_keys s); try reflexivity; try exact Hs.
  - simpl. rewrite map_map. apply map_ext. intros r.
    destruct (bool_decide (g_chat_id r = c)); reflexivity.
  - simpl. rewrite map_map. apply map_ext. intros r.
    destruct (bool_decide (g_chat_id r = c)); reflexivity.
  - apply filters_written_update_group_filter. apply Hs.
Qed.

Lemma store_ok_mark (now : Z) (s : store) (t u : Z) :
  store_ok s -> store_ok (mark_notification_handled now s t u).1.
Proof.
  intros Hs. apply (store_ok_same_keys s); try reflexivity; try apply Hs.
  - simpl. rewrite map_map. apply map_ext. intros r.
    destruct (pending_with t r); reflexivity.
  - simpl. rewrite map_map. apply map_ext. intros r.
    destruct (pending_with t r); reflexivity.
Qed.

Lemma store_ok_add_notification (now : Z) (s : store) (e g t : Z) :
  store_ok s -> store_ok (add_notification now s e g t).1.
Proof.
  intros (Hh & Hc & Hd & Hk & Hf & H1 & H2 & H3).
  pose proof (add_notification_keeps_unique now s e g t Hd) as Hd'.
  destruct Hk as (K1 & K2 & K3 & K4 & K5 & K6).
  unfold add_notification in *.
  destruct (existsb _ (email_notifications s)) eqn:Hex.
  - simpl. unfold store_ok, keys_ok. repeat split; assumption.
  - simpl in *.
    destruct (append_keys n_id (email_notifications s) (email_notifications s)
                (email_notifications_seq s)
                {| n_id := next_rowid (email_notifications_seq s)
                             (map n_id (email_notifications s));
                   n_email_id := e; n_group_id := g;
                   n_telegram_message_id := Some t; n_is_handled := false;
                   n_handled_at := None; n_handled_by := None;
                   n_created_at := now |}) as [N1 N2]; auto.
    destruct (next_rowid_above (email_notifications_seq s)
                (map n_id (email_notifications s))) as [Hseq _].
    split; [exact Hh|]. split; [exact Hc|]. split; [exact Hd'|].
    split; [repeat split; assumption|].
    split; [exact Hf|]. repeat split; simpl; try assumption. lia.
Qed.

Lemma store_ok_cleanup (now : Z) (s : store) (days : Z) :
  store_ok s -> store_ok (cleanup_old_handled_notifications now s days).
Proof.
  intros (Hh & Hc & Hd & Hk & Hf & H1 & H2 & H3).
  destruct Hk as (K1 & K2 & K3 & K4 & K5 & K6).
  unfold store_ok, hashes_unique, chats_unique, deliveries_unique, keys_ok,
    filters_written in *.
  simpl. repeat split; try assumption;
    try (apply NoDup_map_filter; assumption);
    try (apply Forall_map_filter; assumption).
Qed.

(** X7. Every store that the writing methods of [EmailDatabase] build
    from a new database keeps fingerprints distinct, chat identifiers
    distinct and (email, group) pairs distinct, keeps the rowids of each
    table distinct and not above its counter, and holds only filters that
    the methods wrote. *)
Theorem reachable_store_ok (calls : list call) : store_ok (run_calls calls).
Proof.
  unfold run_calls.
  assert (Hfold : forall cs s, store_ok s -> store_ok (fold_left run_call cs s)).
  { induction cs as [|c cs IH]; intros s Hs; [exact Hs|].
    simpl. apply IH. destruct c; simpl.
    - apply store_ok_add_email; exact Hs.
    - apply store_ok_add_group; exact Hs.
    - apply store_ok_remove_group; exact Hs.
    - apply store_ok_update_group_filter; exact Hs.
    - apply store_ok_add_notification; exact Hs.
    - apply store_ok_mark; exact Hs.
    - apply store_ok_cleanup; exact Hs. }
  apply Hfold. apply store_ok_empty.
Qed.

End Preservation.

(** *** Statistics *)

Lemma count_distinct_NoDup (l : list Z) :
  NoDup l -> count_distinct l = Z.of_nat (length l).
Proof.
  induction l as [|a l IH]; simpl; intros Hnd; [reflexivity|].
  apply NoDup_cons in Hnd as [Hnotin Hnd]. rewrite (IH Hnd).
  destruct (existsb (Z.eqb a) l) eqn:Hex; [|lia].
  apply existsb_exists in Hex as (x & Hx & Heq). apply Z.eqb_eq in Heq. subst x.
  exfalso. apply Hnotin. apply list_elem_of_In. exact Hx.
Qed.

Lemma count_split {A : Type} (p : A -> bool) (l : list A) :
  count p l + count (fun x => negb (p x)) l = Z.of_nat (length l).
Proof.
  unfold count. induction l as [|a l IH]; simpl; [reflexivity|].
  destruct (p a); simpl; lia.
Qed.

(** X8. The numbers of [get_group_stats] add up: on a store with distinct
    notification rowids the total of a group is the sum of its handled
    and its pending notifications; a chat without a row gets zeros. *)
Theorem group_stats_add_up (s : store) (chat_id : Z) :
  NoDup (map n_id (email_notifications s)) ->
  let stats := get_group_stats s chat_id in
  total_notifications stats = stats_handled stats + stats_unhandled stats
  /\ 0 <= stats_handled stats
  /\ 0 <= stats_unhandled stats
  /\ (get_group_by_chat_id s chat_id = None ->
      stats = {| stats_group_id := None; total_notifications := 0;
                 stats_handled := 0; stats_unhandled := 0 |}).
Proof.
  intros Hnd stats. subst stats. unfold get_group_stats, get_group_by_chat_id.
  destruct (List.find _ (groups s)) as [g|]; simpl.
  - rewrite count_distinct_NoDup by (apply NoDup_map_filter; exact Hnd).
    rewrite length_map, <- count_split with (p := n_is_handled).
    split; [reflexivity|]. unfold count. split; [lia|]. split; [lia|discriminate].
  - repeat split; lia.
Qed.

Lemma group_stats_add_up_witness :
  let s := (mark_notification_handled 9
              (add_notification 3
                 (add_notification 2
                    (add_group 1 empty_store (-100) (lit "Room") 7 None).1
                    10 1 900).1 11 1 901).1 900 5).1 in
  NoDup (map n_id (email_notifications s))
  /\ get_group_stats s (-100)
     = {| stats_group_id := Some 1; total_notifications := 2;
          stats_handled := 1; stats_unhandled := 1 |}
  /\ total_notifications (get_group_stats s (-100))
     = stats_handled (get_group_stats s (-100))
       + stats_unhandled (get_group_stats s (-100)).
Proof.
  intros s.
  assert (Hnd : NoDup (map n_id (email_notifications s))).
  { simpl. apply NoDup_cons. split; [|apply NoDup_singleton].
    intros Hin. apply list_elem_of_In in Hin. simpl in Hin.
    destruct Hin as [Hin|[]]. discriminate. }
  split; [exact Hnd|]. split; [reflexivity|].
  apply (group_stats_add_up s (-100) Hnd).
Defined.

End StoreProps.

(** ** More on the dispatcher and the commands *)
Module DispatchProps.
Import Chars Parser PyStr Db Watcher Bot Commands Fixtures DbProps BotProps StoreProps.

Lemma send_adds (now : Z) (send : Z -> option Z) (s : store) (e : Z)
    (g : group_row) (n : notification_row) :
  In n (email_notifications (send_email_notification now send s e (g_id g)
                               (g_chat_id g)).1) ->
  In n (email_notifications s) \/ written_for now send e g n.
Proof.
  unfold send_email_notification.
  destruct (send (g_chat_id g)) as [sent|] eqn:Hsend; simpl; [|auto].
  unfold add_notification. destruct (existsb _ _); simpl; [auto|].
  intros Hin. apply in_app_or in Hin as [Hin|[<-|[]]]; [auto|].
  right. unfold written_for. simpl. rewrite Hsend. repeat split; eauto.
Qed.

Lemma send_keeps (now : Z) (send : Z -> option Z) (s : store) (e gid c : Z)
    (n : notification_row) :
  In n (email_notifications s) ->
  In n (email_notifications (send_email_notification now send s e gid c).1).
Proof.
  unfold send_email_notification. destruct (send c); simpl; [|auto].
  unfold add_notification. destruct (existsb _ _); simpl; [auto|].
  intros Hin. apply in_or_app. auto.
Qed.

Lemma notify_groups_adds (now : Z) (send : Z -> option Z) (e : Z) (label : str)
    (gs : list group_row) : forall (s : store) (n : notification_row),
  In n (email_notifications (notify_groups now send e label gs s)) ->
  In n (email_notifications s)
  \/ exists g, In g gs /\ should_send_to_group g label = true
               /\ written_for now send e g n.
Proof.
  unfold notify_groups. induction gs as [|g gs IH]; intros s n; simpl; [auto|].
  intros Hin.
  destruct (should_send_to_group g label) eqn:Hsend.
  - destruct (negb (email_sent_to_group s e (g_id g))).
    + apply IH in Hin as [Hin|(g' & Hg' & Hs' & Hw)].
      * apply send_adds in Hin as [Hin|Hw]; [auto|].
        right. exists g. auto.
      * right. exists g'. auto.
    + apply IH in Hin as [Hin|(g' & Hg' & Hs' & Hw)]; [auto|].
      right. exists g'. auto.
  - apply IH in Hin as [Hin|(g' & Hg' & Hs' & Hw)]; [auto|].
    right. exists g'. auto.
Qed.

Lemma notify_groups_keeps (now : Z) (send : Z -> option Z) (e : Z) (label : str)
    (gs : list group_row) : forall (s : store) (n : notification_row),
  In n (email_notifications s) ->
  In n (email_notifications (notify_groups now send e label gs s)).
Proof.
  unfold notify_groups. induction gs as [|g gs IH]; intros s n Hin; simpl; [auto|].
  destruct (should_send_to_group g label); [|apply IH; exact Hin].
  destruct (negb (email_sent_to_group s e (g_id g))); [|apply IH; exact Hin].
  apply IH. apply send_keeps. exact Hin.
Qed.

Lemma notify_groups_reaches (now : Z) (send : Z -> option Z) (e : Z) (label : str)
    (gs : list group_row) : forall (s : store) (g : group_row) (sent : Z),
  In g gs -> should_send_to_group g label = true ->
  send (g_chat_id g) = Some sent ->
  email_sent_to_group (notify_groups now send e label gs s) e (g_id g) = true.
Proof.
  induction gs as [|g0 gs IH]; intros s g sent Hin Hsend Hok; [destruct Hin|].
  destruct Hin as [->|Hin].
  - unfold notify_groups. simpl. rewrite Hsend.
    assert (Hnow : forall s1,
              email_sent_to_group s1 e (g_id g) = true ->
              email_sent_to_group
                (fold_left
                   (fun s2 group =>
                      if should_send_to_group group label
                      then if negb (email_sent_to_group s2 e (g_id group))
                           then (send_email_notification now send s2 e
                                   (g_id group) (g_chat_id group)).1
                           else s2
                      else s2) gs s1) e (g_id g) = true).
    { intros s1 Hs1. apply sent_iff in Hs1 as (r & Hr & H1 & H2).
      apply sent_iff. exists r. split; [|auto].
      apply (notify_groups_keeps now send e label gs s1 r Hr). }
    destruct (email_sent_to_group s e (g_id g)) eqn:Hsent; simpl.
    + apply Hnow. exact Hsent.
    + apply Hnow. unfold send_email_notification. rewrite Hok. simpl.
      apply add_notification_sent.
  - unfold notify_groups. simpl.
    destruct (should_send_to_group g0 label);
      [destruct (negb (email_sent_to_group s e (g_id g0)))|];
      eapply IH; eauto.
Qed.

Lemma notify_groups_all_fail (now : Z) (send : Z -> option Z) (e : Z) (label : str)
    (gs : list group_row) : forall s,
  (forall c, send c = None) -> notify_groups now send e label gs s = s.
Proof.
  unfold notify_groups. induction gs as [|g gs IH]; intros s Hfail; simpl; [reflexivity|].
  destruct (should_send_to_group g label); [|apply IH; exact Hfail].
  destruct (negb (email_sent_to_group s e (g_id g))); [|apply IH; exact Hfail].
  unfold send_email_notification. rewrite Hfail. simpl. apply IH. exact Hfail.
Qed.

Section Dispatch.
Context `{Sha256} `{Mailparser}.

Lemma process_email_adds (self : TelegramBot) (now : Z) (send : Z -> option Z)
    (s : store) (item : email_data) (n : notification_row) :
  In n (email_notifications (process_email self now send s item)) ->
  In n (email_notifications s)
  \/ exists parsed g e,
       parse_email (parser self) now (raw_email item) = Some parsed
       /\ is_spam parsed = false
       /\ In g (get_active_groups s)
       /\ should_send_to_group g (account_label item) = true
       /\ In e (emails (process_email self now send s item))
       /\ e_message_id e = message_id parsed
       /\ written_for now send (e_id e) g n.
Proof.
  unfold process_email.
  destruct (parse_email (parser self) now (raw_email item)) as [parsed|] eqn:Hp;
    [|auto].
  destruct (is_spam parsed) eqn:Hspam; [auto|].
  destruct (email_exists s (message_id parsed) (sender parsed) (subject parsed))
    eqn:He; [auto|].
  destruct (add_email_fresh now s (message_id parsed)
              (account_label item ++ lit " (" ++ account_email item ++ lit ")")
              (sender parsed) (subject parsed) (body_preview parsed)
              (received_date parsed) He) as (row & Hadd & _ & Hm).
  rewrite Hadd. destruct (e_id row =? 0); [auto|].
  intros Hin. apply notify_groups_adds in Hin as [Hin|(g & Hg & Hsend & Hw)];
    [auto|].
  right. exists parsed, g, row. split; [reflexivity|]. split; [exact Hspam|].
  split; [exact Hg|]. split; [exact Hsend|]. split; [|split; [exact Hm|exact Hw]].
  destruct (notify_groups_facts now send (e_id row) (account_label item)
              (get_active_groups (set_emails s (emails s ++ [row]) (e_id row)))
              (set_emails s (emails s ++ [row]) (e_id row))) as (Hem & _ & _).
  rewrite Hem. simpl. apply in_or_app. right. left. reflexivity.
Qed.

(** X9. Every notification that one turn of the dispatcher adds is for a
    message that parsed and is not spam, and for a group that is active
    and whose filter admits the account label; it names the email row of
    that message, carries the message number that Telegram returned for
    the chat of the group, and is pending. *)
Theorem dispatched_only_to_eligible_groups (self : TelegramBot) (now : Z)
    (send_message : Z -> option Z) (s : store) (item : email_data)
    (n : notification_row) :
  In n (email_notifications (process_email self now send_message s item)) ->
  ~ In n (email_notifications s) ->
  exists parsed g e,
    parse_email (parser self) now (raw_email item) = Some parsed
    /\ is_spam parsed = false
    /\ In g (groups s) /\ g_is_active g = true
    /\ should_send_to_group g (account_label item) = true
    /\ In e (emails (process_email self now send_message s item))
    /\ e_message_id e = message_id parsed
    /\ n_email_id n = e_id e /\ n_group_id n = g_id g
    /\ (exists sent, send_message (g_chat_id g) = Some sent
                     /\ n_telegram_message_id n = Some sent)
    /\ n_is_handled n = false /\ n_handled_by n = None.
Proof.
  intros Hin Hnew.
  apply process_email_adds in Hin as [Hin|(parsed & g & e & Hp & Hs & Hg & Hsend & He & Hm & Hw)];
    [contradiction|].
  apply filter_In in Hg as [Hg Hact].
  destruct Hw as (W1 & W2 & W3 & W4 & _ & W6 & _).
  exists parsed, g, e. repeat split; assumption.
Qed.

(** X10. A message that is new and not spam reaches every eligible group
    whose send succeeds, whatever happens to the sends of the other
    groups: after the turn the email row is there and the pair of the
    email and the group is recorded as sent. *)
Theorem failed_send_does_not_block_others (self : TelegramBot) (now : Z)
    (send_message : Z -> option Z) (s : store) (item : email_data)
    (parsed : parsed_email) (g : group_row) (sent : Z) :
  parse_email (parser self) now (raw_email item) = Some parsed ->
  is_spam parsed = false ->
  email_exists s (message_id parsed) (sender parsed) (subject parsed) = false ->
  0 <= emails_seq s ->
  In g (get_active_groups s) ->
  should_send_to_group g (account_label item) = true ->
  send_message (g_chat_id g) = Some sent ->
  let s' := process_email self now send_message s item in
  exists e, In e (emails s') /\ e_message_id e = message_id parsed
            /\ email_sent_to_group s' (e_id e) (g_id g) = true.
Proof.
  intros Hp Hspam He Hseq Hg Hsend Hok s'. subst s'. unfold process_email.
  rewrite Hp, Hspam, He.
  destruct (add_email_fresh now s (message_id parsed)
              (account_label item ++ lit " (" ++ account_email item ++ lit ")")
              (sender parsed) (subject parsed) (body_preview parsed)
              (received_date parsed) He) as (row & Hadd & _ & Hm).
  pose proof Hadd as Hid. unfold add_email in Hid.
  destruct (List.find _ (emails s)) as [existing|] eqn:Hf.
  { apply find_some in Hf as [Hin Hh]. apply bool_decide_eq_true in Hh.
    rewrite (email_exists_by_hash s existing _ _ _ Hin Hh) in He. discriminate. }
  injection Hid as _ Hid.
  destruct (next_rowid_above (emails_seq s) (map e_id (emails s))) as [Hlt _].
  rewrite Hadd. destruct (Z.eqb_spec (e_id row) 0) as [Hz|Hnz]; [lia|].
  exists row.
  destruct (notify_groups_facts now send_message (e_id row) (account_label item)
              (get_active_groups (set_emails s (emails s ++ [row]) (e_id row)))
              (set_emails s (emails s ++ [row]) (e_id row))) as (Hem & _ & _).
  split; [rewrite Hem; simpl; apply in_or_app; right; left; reflexivity|].
  split; [exact Hm|].
  eapply notify_groups_reaches; eauto.
Qed.

Lemma process_email_known (self : TelegramBot) (now : Z) (send : Z -> option Z)
    (s : store) (item : email_data) (parsed : parsed_email) (row : email_row) :
  parse_email (parser self) now (raw_email item) = Some parsed ->
  In row (emails s) ->
  e_email_hash row
  = generate_email_hash (message_id parsed) (sender parsed) (subject parsed) ->
  process_email self now send s item = s.
Proof.
  intros Hp Hin Hh. apply (process_email_existing self now send s item parsed Hp).
  apply (email_exists_by_hash s row); assumption.
Qed.

(** X11. A send is never tried again: once the first turn has stored a
    message, any number of later turns on the same item leave the store
    as the first turn left it, so a group whose send failed in the first
    turn gets no notification for the message; if every send of the first
    turn failed, no notification of it exists at all. *)
Theorem failed_send_is_never_retried (self : TelegramBot) (s : store)
    (item : email_data) (parsed : parsed_email) (t1 : turn) (later : list turn) :
  turn_item t1 = item ->
  Forall (fun t => turn_item t = item) later ->
  parse_email (parser self) (turn_now t1) (raw_email item) = Some parsed ->
  is_spam parsed = false ->
  email_exists s (message_id parsed) (sender parsed) (subject parsed) = false ->
  process_email_queue self (t1 :: later) s = process_email_queue self [t1] s
  /\ ((forall c, turn_send_message t1 c = None) ->
      email_notifications (process_email_queue self (t1 :: later) s)
      = email_notifications s).
Proof.
  intros Ht1 Hlater Hp Hspam He.
  destruct (process_email_new self (turn_now t1) (turn_send_message t1) s item
              parsed Hp Hspam He) as (row & Hem & Hh & _).
  set (once := process_email self (turn_now t1) (turn_send_message t1) s item) in *.
  assert (Hfix : forall ts, Forall (fun t => turn_item t = item) ts ->
                 fold_left
                   (fun s0 t => process_email self (turn_now t) (turn_send_message t)
                                  s0 (turn_item t)) ts once = once).
  { induction ts as [|t ts IH]; intros Hall; [reflexivity|].
    apply Forall_cons in Hall as [Ht Hall]. simpl. rewrite Ht.
    destruct (parse_email_clock (parser self) (turn_now t1) (turn_now t)
                (raw_email item) parsed Hp) as (p2 & Hp2 & Hm & Hsn & Hsb & _).
    rewrite (process_email_known self (turn_now t) (turn_send_message t) once item
               p2 row Hp2).
    - apply IH. exact Hall.
    - rewrite Hem. apply in_or_app. right. left. reflexivity.
    - rewrite Hm, Hsn, Hsb. exact Hh. }
  assert (Hq : process_email_queue self (t1 :: later) s
               = process_email_queue self [t1] s).
  { unfold process_email_queue. simpl. rewrite Ht1. fold once. apply Hfix. exact Hlater. }
  split; [exact Hq|].
  intros Hfail. rewrite Hq. unfold process_email_queue. simpl. rewrite Ht1.
  unfold process_email. rewrite Hp, Hspam, He.
  destruct (add_email_fresh (turn_now t1) s (message_id parsed)
              (account_label item ++ lit " (" ++ account_email item ++ lit ")")
              (sender parsed) (subject parsed) (body_preview parsed)
              (received_date parsed) He) as (row' & Hadd & _ & _).
  rewrite Hadd. destruct (e_id row' =? 0); [reflexivity|].
  rewrite notify_groups_all_fail by exact Hfail. reflexivity.
Qed.

End Dispatch.

End DispatchProps.

(** ** Witnesses of the dispatcher properties and the commands *)
Module CommandProps.
Import Chars Parser PyStr Db Watcher Bot Commands Fixtures DbProps BotProps
  StoreProps DispatchProps.

Lemma fingerprint_joins_fields_witness :
  lit "id" ++ lit "|" ++ lit "a|b" ++ lit "|" ++ lit "c"
  = lit "id|a" ++ lit "|" ++ lit "b" ++ lit "|" ++ lit "c"
  /\ (@add_email plain_digest 2
        (@add_email plain_digest 1 empty_store (lit "id") (lit "x") (lit "a|b")
           (lit "c") (lit "p") 0).1
        (lit "id|a") (lit "y") (lit "b") (lit "c") (lit "q") 0).2 = Some 1.
Proof.
  assert (Hjoin : lit "id" ++ lit "|" ++ lit "a|b" ++ lit "|" ++ lit "c"
                  = lit "id|a" ++ lit "|" ++ lit "b" ++ lit "|" ++ lit "c")
    by reflexivity.
  split; [exact Hjoin|].
  destruct (@fingerprint_joins_fields plain_digest 1 2 empty_store
              (lit "id") (lit "id|a") (lit "x") (lit "y") (lit "a|b") (lit "b")
              (lit "c") (lit "c") (lit "p") (lit "q") 0 0 Hjoin)
    as (_ & _ & _ & Hr).
  rewrite Hr. reflexivity.
Defined.

Lemma dispatched_only_to_eligible_groups_witness :
  In written_to_room_b
    (email_notifications
       (@process_email plain_digest one_message bot 5 send_fails_for_room_a
          two_rooms item_of_sales))
  /\ ~ In written_to_room_b (email_notifications two_rooms)
  /\ exists parsed g e,
       @parse_email one_message (parser bot) 5 (raw_email item_of_sales)
       = Some parsed
       /\ is_spam parsed = false
       /\ In g (groups two_rooms) /\ g_is_active g = true
       /\ should_send_to_group g (account_label item_of_sales) = true
       /\ In e (emails (@process_email plain_digest one_message bot 5
                          send_fails_for_room_a two_rooms item_of_sales))
       /\ e_message_id e = message_id parsed
       /\ n_email_id written_to_room_b = e_id e
       /\ n_group_id written_to_room_b = g_id g
       /\ (exists sent, send_fails_for_room_a (g_chat_id g) = Some sent
                        /\ n_telegram_message_id written_to_room_b = Some sent)
       /\ n_is_handled written_to_room_b = false
       /\ n_handled_by written_to_room_b = None.
Proof.
  assert (H1 : In written_to_room_b
                 (email_notifications
                    (@process_email plain_digest one_message bot 5
                       send_fails_for_room_a two_rooms item_of_sales)))
    by (vm_compute; left; reflexivity).
  assert (H2 : ~ In written_to_room_b (email_notifications two_rooms))
    by (simpl; tauto).
  split; [exact H1|]. split; [exact H2|].
  exact (@dispatched_only_to_eligible_groups plain_digest one_message bot 5
           send_fails_for_room_a two_rooms item_of_sales written_to_room_b H1 H2).
Defined.

Lemma failed_send_does_not_block_others_witness :
  let s' := @process_email plain_digest one_message bot 5 send_fails_for_room_a
              two_rooms item_of_sales in
  send_fails_for_room_a (-100) = None
  /\ exists e, In e (emails s')
       /\ e_message_id e = lit "<m1@example.org>"
       /\ email_sent_to_group s' (e_id e) 2 = true.
Proof.
  intros s'. split; [reflexivity|].
  edestruct (@failed_send_does_not_block_others plain_digest one_message bot 5
               send_fails_for_room_a two_rooms item_of_sales)
    with (g := {| g_id := 2; g_chat_id := -200;
                  g_chat_title := Some (lit "Room B"); g_is_active := true;
                  g_filter_accounts := None; g_added_at := 2;
                  g_added_by := Some 8; g_updated_at := 2 |}) (sent := 900)
    as (e & He & Hm & Hsent).
  - reflexivity.
  - vm_compute. reflexivity.
  - reflexivity.
  - simpl. lia.
  - simpl. right. left. reflexivity.
  - reflexivity.
  - reflexivity.
  - exists e. split; [exact He|]. split; [exact Hm|exact Hsent].
Defined.

Lemma failed_send_is_never_retried_witness :
  let t1 := {| turn_now := 5; turn_send_message := fun _ => None;
               turn_item := item_of_sales |} in
  let t2 := {| turn_now := 6; turn_send_message := fun _ => Some 901;
               turn_item := item_of_sales |} in
  @process_email_queue plain_digest one_message bot [t1; t2] two_rooms
  = @process_email_queue plain_digest one_message bot [t1] two_rooms
  /\ email_notifications
       (@process_email_queue plain_digest one_message bot [t1; t2] two_rooms) = [].
Proof.
  intros t1 t2.
  edestruct (@failed_send_is_never_retried plain_digest one_message bot two_rooms
               item_of_sales) with (t1 := t1) (later := [t2]) as [Hq Hn].
  - reflexivity.
  - constructor; [reflexivity|constructor].
  - reflexivity.
  - vm_compute. reflexivity.
  - reflexivity.
  - split; [exact Hq|]. rewrite Hn; [reflexivity|]. intros c. reflexivity.
Defined.

(** *** The commands *)

Lemma split_on_nonempty (sep : ascii) (s : str) : split_on sep s <> [].
Proof.
  destruct s as [|c s]; simpl; [discriminate|].
  destruct (eqb_char c sep); [discriminate|].
  destruct (split_on sep s); discriminate.
Qed.

(** X12. [/filter] with arguments, in a group chat that has a row: the
    words are joined by spaces; "clear" in any case removes the filter,
    and any other text leaves a filter in place, whose labels are the
    pieces between the commas with the whitespace around them removed.
    Afterwards the rows of the chat are eligible for a label exactly
    when the filter was cleared or the label is one of these pieces;
    rowids and active flags are as before. *)
Theorem filter_command_sets_filter (now : Z) (s : store) (chat_type : str)
    (chat_id : Z) (args : list str) (group_info : group_row) :
  in_group chat_type = true ->
  get_group_by_chat_id s chat_id = Some group_info ->
  args <> [] ->
  let filter_text := join (lit " ") args in
  let s' := (filter_command now s chat_type chat_id args).1 in
  map g_id (groups s') = map g_id (groups s)
  /\ map g_is_active (groups s') = map g_is_active (groups s)
  /\ (forall g label, In g (groups s') -> g_chat_id g = chat_id ->
        (should_send_to_group g label = true <->
         lower filter_text = lit "clear"
         \/ In label (map strip (split_on "," filter_text))))
  /\ (forall g, g_chat_id g <> chat_id -> In g (groups s') <-> In g (groups s)).
Proof.
  intros Hgroup Hget Hargs filter_text s'. subst s'. unfold filter_command.
  rewrite Hgroup, Hget. simpl negb. cbv iota.
  destruct args as [|a args]; [congruence|]. fold filter_text.
  assert (Hkeep : forall f,
            map g_id (groups (update_group_filter now s chat_id f).1)
            = map g_id (groups s)
            /\ map g_is_active (groups (update_group_filter now s chat_id f).1)
               = map g_is_active (groups s)
            /\ (forall g, g_chat_id g <> chat_id ->
                  In g (groups (update_group_filter now s chat_id f).1)
                  <-> In g (groups s))).
  { intros f. simpl. rewrite !map_map. split; [|split].
    - apply map_ext. intros r.
      destruct (bool_decide (g_chat_id r = chat_id)); reflexivity.
    - apply map_ext. intros r.
      destruct (bool_decide (g_chat_id r = chat_id)); reflexivity.
    - intros g Hne. rewrite in_map_iff. split.
      + intros (g0 & Hg0 & Hin0).
        destruct (bool_decide (g_chat_id g0 = chat_id)) eqn:Hd.
        * subst g. simpl in Hne. apply bool_decide_eq_true in Hd. contradiction.
        * subst g. exact Hin0.
      + intros Hin. exists g. split; [|exact Hin].
        rewrite bool_decide_eq_false_2 by exact Hne. reflexivity. }
  destruct (bool_decide (lower filter_text = lit "clear")) eqn:Hclear.
  - apply bool_decide_eq_true in Hclear. cbn [fst].
    destruct (Hkeep None) as (K1 & K2 & K3).
    split; [exact K1|]. split; [exact K2|]. split; [|exact K3].
    intros g label Hin Hc.
    rewrite (update_group_filter_eligible now s chat_id None g label Hin Hc).
    tauto.
  - apply bool_decide_eq_false in Hclear. cbn [fst].
    destruct (Hkeep (Some (map strip (split_on "," filter_text)))) as (K1 & K2 & K3).
    split; [exact K1|]. split; [exact K2|]. split; [|exact K3].
    intros g label Hin Hc.
    rewrite (update_group_filter_eligible now s chat_id _ g label Hin Hc).
    pose proof (split_on_nonempty "," filter_text) as Hne.
    destruct (split_on "," filter_text) as [|part parts]; [congruence|].
    simpl map. tauto.
Qed.

Lemma filter_command_sets_filter_witness :
  let s := (add_group 1 empty_store (-100) (lit "Room A") 7 None).1 in
  let s' := (filter_command 3 s (lit "group") (-100)
               [lit "sales,"; lit "support"]).1 in
  map g_filter_accounts (groups s')
  = [Some (json_dumps [lit "sales"; lit "support"])]
  /\ forall g label, In g (groups s') -> g_chat_id g = -100 ->
       (should_send_to_group g label = true <->
        lower (lit "sales, support") = lit "clear"
        \/ In label (map strip (split_on "," (lit "sales, support")))).
Proof.
  intros s s'. split; [reflexivity|].
  destruct (filter_command_sets_filter 3 s (lit "group") (-100)
              [lit "sales,"; lit "support"]
              {| g_id := 1; g_chat_id := -100; g_chat_title := Some (lit "Room A");
                 g_is_active := true; g_filter_accounts := None; g_added_at := 1;
                 g_added_by := Some 7; g_updated_at := 1 |})
    as (_ & _ & Hel & _).
  - reflexivity.
  - reflexivity.
  - discriminate.
  - exact Hel.
Defined.

(** A comma alone leaves a filter of two empty labels, which admits no
    account with a label. *)
Lemma filter_of_a_comma_blocks_every_label :
  let s := (add_group 1 empty_store (-100) (lit "Room A") 7 None).1 in
  let s' := (filter_command 3 s (lit "group") (-100) [lit ","]).1 in
  map g_filter_accounts (groups s') = [Some (json_dumps [[]; []])]
  /\ forall g, In g (groups s') ->
       should_send_to_group g (lit "sales") = false.
Proof.
  intros s s'. split; [reflexivity|].
  intros g [<-|[]]. reflexivity.
Qed.

Section Unsubscribed.
Context `{Sha256} `{Mailparser}.

(** X13. After [/unsubscribe] in a group chat no turn of the dispatcher
    writes a notification for a row of that chat: whatever a turn adds is
    for an active row of another chat. *)
Theorem unsubscribed_chat_gets_nothing (self : TelegramBot) (now : Z)
    (send_message : Z -> option Z) (s : store) (chat_type : str) (chat_id : Z)
    (item : email_data) (n : notification_row) :
  in_group chat_type = true ->
  let s1 := (unsubscribe_command s chat_type chat_id).1 in
  In n (email_notifications (process_email self now send_message s1 item)) ->
  ~ In n (email_notifications s) ->
  exists g, In g (groups s) /\ g_is_active g = true /\ g_chat_id g <> chat_id
            /\ n_group_id n = g_id g.
Proof.
  intros Hgroup s1 Hin Hnew.
  assert (Hs1 : s1 = (remove_group s chat_id).1).
  { subst s1. unfold unsubscribe_command. rewrite Hgroup. simpl negb. cbv iota.
    destruct (remove_group s chat_id) as [s0 removed]. destruct removed; reflexivity. }
  rewrite Hs1 in Hin.
  apply process_email_adds in Hin
    as [Hin|(parsed & g & e & _ & _ & Hg & _ & _ & _ & Hw)].
  - simpl in Hin. contradiction.
  - apply remove_group_active in Hg as [Hg Hne].
    apply filter_In in Hg as [Hg Hact].
    destruct Hw as (_ & W2 & _). exists g. auto.
Qed.

End Unsubscribed.

Lemma unsubscribed_chat_gets_nothing_witness :
  let s1 := (unsubscribe_command two_rooms (lit "group") (-100)).1 in
  in_group (lit "group") = true
  /\ map n_group_id
       (email_notifications
          (@process_email plain_digest one_message bot 5 (fun _ => Some 900) s1
             item_of_sales)) = [2]
  /\ exists g, In g (groups two_rooms) /\ g_is_active g = true
       /\ g_chat_id g <> -100
       /\ n_group_id written_to_room_b = g_id g.
Proof.
  intros s1. split; [reflexivity|]. split; [reflexivity|].
  apply (@unsubscribed_chat_gets_nothing plain_digest one_message bot 5
           (fun _ => Some 900) two_rooms (lit "group") (-100) item_of_sales
           written_to_room_b).
  - reflexivity.
  - vm_compute. left. reflexivity.
  - simpl. tauto.
Defined.

End CommandProps.

(** ** More on the account watcher *)
Module WatcherMore.
Import Parser Watcher WatcherRuns WatcherProps.

Lemma check_after_connect (io : check_io) (w : EmailWatcher) (m0 : list Z) :
  client w = false ->
  io_connect io = ConnectOk m0 ->
  check_new_emails io w
  = check_new_emails io (connect (ConnectOk m0) w).1.
Proof.
  intros Hc Hconn. unfold check_new_emails. rewrite Hc, Hconn. reflexivity.
Qed.

(** X14. A check that finds the watcher without a client connects first,
    and the connection takes the identifiers of its own search as the
    watermark, whatever the watermark was before: the check emits exactly
    the identifiers that the second search lists, the first does not, and
    whose fetch succeeds.  A message that arrived while the watcher was
    disconnected is in the new watermark and is not emitted. *)
Theorem reconnect_takes_new_watermark (io : check_io) (w : EmailWatcher)
    (at_connect at_search : list Z) :
  client w = false ->
  io_connect io = ConnectOk at_connect ->
  io_search io = SearchOk at_search ->
  let w' := (check_new_emails io w).1 in
  let new_emails := (check_new_emails io w).2 in
  (forall u, u ∈ map uid new_emails <->
             u ∈ at_search /\ (u ∉ at_connect)
             /\ exists raw, io_fetch io u = FetchOk raw)
  /\ (forall u, u ∈ at_connect -> u ∉ map uid new_emails)
  /\ client w' = true
  /\ ((list_to_set at_search : gset Z) ∖ list_to_set at_connect = ∅ ->
      last_seen_uids w' = list_to_set at_connect)
  /\ ((list_to_set at_search : gset Z) ∖ list_to_set at_connect <> ∅ ->
      last_seen_uids w' = list_to_set at_search).
Proof.
  intros Hc Hconn Hsearch w' new_emails. subst w' new_emails.
  rewrite (check_after_connect io w at_connect Hc Hconn).
  destruct (check_connected io (connect (ConnectOk at_connect) w).1 at_search
              eq_refl Hsearch) as (Hem & _ & Hsame & Hnew & Hcl).
  simpl in Hem, Hsame, Hnew.
  split; [|split; [|split; [exact Hcl|split; [exact Hsame|exact Hnew]]]].
  - intros u. rewrite Hem. rewrite !elem_of_list_to_set. reflexivity.
  - intros u Hu Hin. apply Hem in Hin as (_ & Hn & _).
    apply Hn. apply elem_of_list_to_set. exact Hu.
Qed.

Lemma reconnect_takes_new_watermark_witness :
  let w := {| label := lit "A"; email := lit "a@x.com"; client := false;
              last_seen_uids := list_to_set [1; 2] |} in
  let io := {| io_connect := ConnectOk [1; 2; 3];
               io_search := SearchOk [1; 2; 3; 4];
               io_fetch := fun _ => FetchOk [] |} in
  map uid (check_new_emails io w).2 = [4]
  /\ (3 : Z) ∉ map uid (check_new_emails io w).2.
Proof.
  intros w io. split; [vm_compute; reflexivity|].
  destruct (reconnect_takes_new_watermark io w [1; 2; 3] [1; 2; 3; 4])
    as (_ & Hskip & _).
  - reflexivity.
  - reflexivity.
  - reflexivity.
  - apply Hskip. apply list_elem_of_In. simpl. auto.
Defined.

Lemma polling_loop_growing (ios : list check_io) : forall (w : EmailWatcher)
    (seen previous : gset Z),
  client w = true ->
  seen ⊆ last_seen_uids w ->
  seen ⊆ previous ->
  growing previous ios ->
  NoDup (emitted (polling_loop ios w).2)
  /\ forall u, u ∈ emitted (polling_loop ios w).2 -> u ∉ seen.
Proof.
  induction ios as [|io ios IH]; intros w seen previous Hc Hseen Hprev Hgrow.
  - simpl. split; [constructor|]. intros u Hu. inversion Hu.
  - destruct Hgrow as (messages & Hs & Hsub & Hgrow).
    destruct (check_connected io w messages Hc Hs) as (Hem & Hnd & Hsame & Hnew & Hc').
    simpl. destruct (check_new_emails io w) as [w1 batch] eqn:Hchk. simpl in *.
    destruct (polling_loop ios w1) as [w2 rest] eqn:Hloop.
    unfold emitted. simpl. fold (emitted rest).
    set (seen' := seen ∪ list_to_set (map uid batch) : gset Z).
    destruct (IH w1 seen' (list_to_set messages) Hc') as [IHnd IHout].
    + destruct (decide (list_to_set messages ∖ last_seen_uids w = (∅ : gset Z)))
        as [He|Hne].
      * rewrite (Hsame He). subst seen'. intros u Hu.
        apply elem_of_union in Hu as [Hu|Hu]; [set_solver|].
        apply elem_of_list_to_set in Hu. apply Hem in Hu as (Hu1 & Hu2 & _).
        exfalso. set_solver.
      * rewrite (Hnew Hne). subst seen'. intros u Hu.
        apply elem_of_union in Hu as [Hu|Hu]; [set_solver|].
        apply elem_of_list_to_set in Hu. apply Hem in Hu as (Hu1 & _). exact Hu1.
    + subst seen'. intros u Hu.
      apply elem_of_union in Hu as [Hu|Hu]; [set_solver|].
      apply elem_of_list_to_set in Hu. apply Hem in Hu as (Hu1 & _). exact Hu1.
    + exact Hgrow.
    + rewrite Hloop in IHnd, IHout. simpl in IHnd, IHout. split.
      * apply NoDup_app. split; [exact Hnd|]. split; [|exact IHnd].
        intros u Hu Hu'. apply (IHout u Hu'). subst seen'.
        apply elem_of_union. right. apply elem_of_list_to_set. exact Hu.
      * intros u Hu Hs'. apply elem_of_app in Hu as [Hu|Hu].
        -- apply Hem in Hu as (_ & Hn & _). apply Hn. apply Hseen. exact Hs'.
        -- apply (IHout u Hu). subst seen'. apply elem_of_union. left. exact Hs'.
Qed.

(** X15. As long as every search of a connection succeeds and the
    mailbox only grows from one search to the next, no identifier is put
    on the queue twice, and no identifier of the watermark of the start
    is put on it at all. *)
Theorem no_identifier_emitted_twice (ios : list check_io) (w : EmailWatcher) :
  client w = true ->
  growing ∅ ios ->
  NoDup (emitted (polling_loop ios w).2).
Proof.
  intros Hc Hgrow.
  destruct (polling_loop_growing ios w ∅ ∅ Hc) as [Hnd _];
    [set_solver|set_solver|exact Hgrow|exact Hnd].
Qed.

Lemma no_identifier_emitted_twice_witness :
  let w := (connect (ConnectOk [1; 2]) (EmailWatcher_init (lit "A") (lit "a@x.com"))).1 in
  let ios := [answering [1; 2; 3]; answering [1; 2; 3]; answering [1; 2; 3; 4; 5]] in
  emitted (polling_loop ios w).2 = [3; 5; 4]
  /\ NoDup (emitted (polling_loop ios w).2).
Proof.
  intros w ios. split; [vm_compute; reflexivity|].
  apply (no_identifier_emitted_twice ios w).
  - reflexivity.
  - simpl. exists [1; 2; 3]. split; [reflexivity|]. split; [set_solver|].
    exists [1; 2; 3]. split; [reflexivity|]. split; [set_solver|].
    exists [1; 2; 3; 4; 5]. split; [reflexivity|]. split; [set_solver|exact I].
Defined.

End WatcherMore.
